(** * World Cup 2026 simulator: bracket construction and propagation

    A shallow embedding of [app.py] and the properties of its specification.

    Conventions of the embedding.
    - A Python [str] is a [string]; every [ascii] stands for one character
      (code points below 256), so [String.length] is Python's [len].
    - A Python [int] is a [Z]; [%] with a positive divisor is [Z.modulo].
    - [Optional[str]] is [option string]; truthiness is [truthy].
    - A dictionary that the program iterates over is an insertion-ordered
      association list ([Dict.t]); a dictionary that is only read by key is
      a [gmap]; a [set] is a [gset].
    - A [KeyError] is the [None] of an [option] result.
    - The Streamlit widgets are the operator: they are Section variables,
      identified by their [key] (labels are display text only). *)

From Stdlib Require Import ZArith Ascii DecimalString DecimalZ DecimalPos.
From stdpp Require Import gmap strings list fin_maps sorting.


(** ** Python primitives *)

(** [f"{n}"] for an integer. *)
Definition format_int (n : Z) : string := NilZero.string_of_int (Z.to_int n).

(** Truth value of an [Optional[str]]: [None] and [""] are false. *)
Definition truthy (o : option string) : bool :=
  match o with
  | Some s => negb (bool_decide (s = ""))
  | None => false
  end.

(** Insertion-ordered dictionaries with string keys. *)
Module Dict.
Abbreviation t V := (list (string * V)) (only parsing).

Fixpoint get {V} (d : t V) (k : string) : option V :=
  match d with
  | [] => None
  | (k', v) :: d' => if decide (k = k') then Some v else get d' k
  end.

(** [d[k] = v]: an existing key keeps its place, a new key goes last. *)
Fixpoint set {V} (k : string) (v : V) (d : t V) : t V :=
  match d with
  | [] => [(k, v)]
  | (k', v') :: d' =>
      if decide (k = k') then (k, v) :: d' else (k', v') :: set k v d'
  end.

Definition keys {V} (d : t V) : list string := d.*1.
Definition items {V} (d : t V) : list (string * V) := d.
End Dict.

(** [{1: "st", 2: "nd", 3: "rd"}.get(k, dflt)] and friends. *)
Fixpoint int_dict_get {V} (d : list (Z * V)) (k : Z) (dflt : V) : V :=
  match d with
  | [] => dflt
  | (k', v) :: d' => if decide (k = k') then v else int_dict_get d' k dflt
  end.

Fixpoint char_dict_get {V} (d : list (ascii * V)) (k : ascii) : option V :=
  match d with
  | [] => None
  | (k', v) :: d' => if decide (k = k') then Some v else char_dict_get d' k
  end.

(** [.get(k)] on a [Dict[str, Optional[str]]]: a missing key and a stored
    [None] both read as [None]. *)
Definition winners_get (d : gmap string (option string)) (k : string)
  : option string :=
  default None (d !! k).

(** ** Configuration *)

Definition Curacao : string :=
  "Cura" +:+ String (Ascii.ascii_of_nat 231) "ao".

Definition INITIAL_GROUPS : Dict.t (list string) :=
  [ ("A", ["Mexico"; "South Africa"; "South Korea"; "UEFA D (DEN/MKD/CZE/IRL)"]);
    ("B", ["Canada"; "UEFA A (ITA/NIR/WAL/BIH)"; "Qatar"; "Switzerland"]);
    ("C", ["Brazil"; "Morrocco"; "Haiti"; "Scotland"]);
    ("D", ["USA"; "Paraguay"; "Australia"; "UEFA C (SVK/KOS/TUR/ROU)"]);
    ("E", ["Germany"; Curacao; "Ivory Coast"; "Ecuador"]);
    ("F", ["Netherlands"; "Japan"; "UEFA B (UKR/SWE/POL/ALB)"; "Tunisia"]);
    ("G", ["Belgium"; "Egypt"; "Iran"; "New Zealand"]);
    ("H", ["Spain"; "Cabo Verde"; "Saudi Arabia"; "Uruguay"]);
    ("I", ["France"; "Senegal"; "IC2 (BOL/SUR/IRQ)"; "Norway"]);
    ("J", ["Argentina"; "Algeria"; "Austria"; "Jordan"]);
    ("K", ["Portugal"; "IC1 (NCL/JAM/COD)"; "Uzbekistan"; "Colombia"]);
    ("L", ["England"; "Croatia"; "Ghana"; "Panama"]) ].

(** Order of Python strings: lexicographic on code points. *)
Definition str_le (a b : string) : Prop := Is_true (String.leb a b).

Definition GROUP_NAMES : list string :=
  merge_sort str_le (Dict.keys INITIAL_GROUPS).

(** ** Utility functions *)

Definition ordinal (n : Z) : string :=
  let suffix :=
    if (10 <=? n mod 100)%Z && (n mod 100 <=? 20)%Z then "th"
    else int_dict_get [(1%Z, "st"); (2%Z, "nd"); (3%Z, "rd")] (n mod 10)%Z "th" in
  format_int n +:+ suffix.

Definition validar_permutacao (choices : list string) (empty : string) : bool :=
  if bool_decide (empty ∈ choices) then false
  else bool_decide (length choices = size (list_to_set choices : gset string)).

(** Third-placed teams of the complete groups, in the order of the
    standings dictionary. *)
Definition coletar_terceiros (standings : Dict.t (list string))
  : list (string * string) :=
  foldl (λ (thirds : list (string * string)) '(g, pos),
           if bool_decide (length pos = 4)
           then thirds ++ [(g, default "" (pos !! 2))]
           else thirds)
        [] (Dict.items standings).

(** ** Round of 32 rules *)

Definition ROUND32_FIXED : Dict.t (string * string) :=
  [ ("M73", ("2A", "2B"));
    ("M75", ("1F", "2C"));
    ("M76", ("1C", "2F"));
    ("M78", ("2E", "2I"));
    ("M83", ("2K", "2L"));
    ("M84", ("1H", "2J"));
    ("M86", ("1J", "2H"));
    ("M88", ("2D", "2G")) ].

Definition ROUND32_THIRD_SLOTS : Dict.t (string * list string) :=
  [ ("M74", ("1E", ["A"; "B"; "C"; "D"; "F"]));
    ("M77", ("1I", ["C"; "D"; "F"; "G"; "H"]));
    ("M79", ("1A", ["C"; "E"; "F"; "H"; "I"]));
    ("M80", ("1L", ["E"; "H"; "I"; "J"; "K"]));
    ("M81", ("1D", ["B"; "E"; "F"; "I"; "J"]));
    ("M82", ("1G", ["A"; "E"; "H"; "I"; "J"]));
    ("M85", ("1B", ["E"; "F"; "G"; "I"; "J"]));
    ("M87", ("1K", ["D"; "E"; "I"; "J"; "L"])) ].

(** [code[0]] and [code[1]] are characters here, and the group letter is
    turned back into the one-character string that keys the standings. *)
Definition extrair_time (code : string) (standings : Dict.t (list string))
  : option string :=
  if bool_decide (String.length code ≠ 2) then None
  else
    match String.get 0 code, String.get 1 code with
    | Some pos, Some group =>
        let group := String group EmptyString in
        match Dict.get standings group with
        | None => None
        | Some st =>
            if bool_decide (length st ≠ 4) then None
            else
              match char_dict_get
                      [("1"%char, 0); ("2"%char, 1); ("3"%char, 2); ("4"%char, 3)]
                      pos with
              | None => None
              | Some idx => st !! idx
              end
        end
    | _, _ => None
    end.

(** *** Assignment of the qualified third-placed teams *)

Definition match_ids : list string := Dict.keys ROUND32_THIRD_SLOTS.

(** Groups a slot accepts: the second component of
    [ROUND32_THIRD_SLOTS[mid]] ([mid] always comes from [match_ids]). *)
Definition allowed_groups (mid : string) : list string :=
  match Dict.get ROUND32_THIRD_SLOTS mid with
  | Some (_, groups) => groups
  | None => []
  end.

(** State of the search: the result flag and the two mutable objects
    [used_matches] and [assignment]. *)
Definition search_state : Type :=
  bool * gset string * gmap string (string * string).

(** The [for mid in match_ids] loop of [backtrack] for the pair
    [(group, team)]; [rec] is the call [backtrack(i + 1, used_matches)]. *)
Fixpoint try_slots (group team : string)
    (rec : gset string → gmap string (string * string) → search_state)
    (mids : list string)
    (used_matches : gset string) (assignment : gmap string (string * string))
  : search_state :=
  match mids with
  | [] => (false, used_matches, assignment)
  | mid :: mids' =>
      if decide (mid ∈ used_matches) then
        try_slots group team rec mids' used_matches assignment
      else if negb (bool_decide (group ∈ allowed_groups mid)) then
        try_slots group team rec mids' used_matches assignment
      else
        let assignment := <[mid := (group, team)]> assignment in
        let used_matches := {[mid]} ∪ used_matches in
        match rec used_matches assignment with
        | (true, used_matches, assignment) => (true, used_matches, assignment)
        | (false, used_matches, assignment) =>
            let used_matches := used_matches ∖ {[mid]} in
            let assignment := delete mid assignment in
            try_slots group team rec mids' used_matches assignment
        end
  end.

(** [backtrack(i, used_matches)], on the pairs [qualified[i:]] still to
    place; [i == len(qualified)] is the empty suffix. *)
Fixpoint backtrack (rest : list (string * string))
  : gset string → gmap string (string * string) → search_state :=
  match rest with
  | [] => λ used_matches assignment, (true, used_matches, assignment)
  | (group, team) :: rest' =>
      try_slots group team (backtrack rest') match_ids
  end.

Definition err_not_8 : string :=
  "Exactly 8 third-placed teams must be qualified.".
Definition err_unable : string :=
  "Unable to assign the selected third-placed teams to the Round of 32.".

Definition distribuir_terceiros_nos_jogos (qualified : list (string * string))
  : option (gmap string (string * string)) * option string :=
  if bool_decide (length qualified ≠ 8) then (None, Some err_not_8)
  else
    match backtrack qualified ∅ ∅ with
    | (false, _, _) => (None, Some err_unable)
    | (true, _, assignment) => (Some assignment, None)
    end.

(** A round-of-32 game: the two teams and the textual description. *)
Abbreviation jogo := (option string * option string * string)%type.

(** Body of the loop over [ROUND32_FIXED.items()]. *)
Definition fixed_game (standings : Dict.t (list string))
    (jogos : gmap string jogo) (entry : string * (string * string))
  : gmap string jogo :=
  let '(mid, (code1, code2)) := entry in
  let t1 := extrair_time code1 standings in
  let t2 := extrair_time code2 standings in
  <[mid := (t1, t2, code1 +:+ " vs " +:+ code2)]> jogos.

(** Body of the loop over [ROUND32_THIRD_SLOTS.items()]; [None] is a
    [KeyError] on [jogos_terceiros[mid]]. *)
Definition third_game (standings : Dict.t (list string))
    (jogos_terceiros : gmap string (string * string))
    (acc : option (gmap string jogo)) (entry : string * (string * list string))
  : option (gmap string jogo) :=
  let '(mid, (code1, _)) := entry in
  jogos ← acc;
  let t1 := extrair_time code1 standings in
  '(group_3, team_3) ← jogos_terceiros !! mid;
  let code2 := "3" +:+ group_3 in
  Some (<[mid := (t1, Some team_3, code1 +:+ " vs " +:+ code2)]> jogos).

(** [None] is an exception raised while the games are built. *)
Definition montar_round32 (standings : Dict.t (list string))
    (qualified_thirds : list (string * string))
  : option (gmap string jogo * option string) :=
  let '(jogos_terceiros, err) := distribuir_terceiros_nos_jogos qualified_thirds in
  if truthy err then Some (∅, err)
  else
    jogos_terceiros ← jogos_terceiros;
    let jogos := foldl (fixed_game standings) ∅ (Dict.items ROUND32_FIXED) in
    jogos ← foldl (third_game standings jogos_terceiros) (Some jogos)
                  (Dict.items ROUND32_THIRD_SLOTS);
    Some (jogos, None).

(** ** Bracket structure *)

Definition ROUND16_MATCHES : Dict.t (string * string) :=
  [ ("M89", ("M74", "M77"));
    ("M90", ("M73", "M75"));
    ("M91", ("M76", "M78"));
    ("M92", ("M79", "M80"));
    ("M93", ("M83", "M84"));
    ("M94", ("M81", "M82"));
    ("M95", ("M86", "M88"));
    ("M96", ("M85", "M87")) ].

Definition QUARTERS_MATCHES : Dict.t (string * string) :=
  [ ("M97", ("M89", "M90"));
    ("M98", ("M93", "M94"));
    ("M99", ("M91", "M92"));
    ("M100", ("M95", "M96")) ].

Definition SEMIS_MATCHES : Dict.t (string * string) :=
  [ ("M101", ("M97", "M98"));
    ("M102", ("M99", "M100")) ].

Definition order32 : list string :=
  [ "M73"; "M74"; "M75"; "M76";
    "M77"; "M78"; "M79"; "M80";
    "M81"; "M82"; "M83"; "M84";
    "M85"; "M86"; "M87"; "M88" ].

(** ** The operator's side: Streamlit widgets

    [selectbox key options] is the value of the select box [key],
    [checkbox key] the state of the check box [key], and [radio key options]
    the option picked in the radio group [key]. *)

(** What is shown for one knockout match: its identifier, its description,
    the two teams (when determined) and the winner picked by the operator. *)
Record match_view : Type := MatchView {
  mv_id : string;
  mv_desc : string;
  mv_team1 : option string;
  mv_team2 : option string;
  mv_winner : option string
}.

(** The third-place column: either "Waiting for semifinal results" or the
    two semifinal losers with the winner widget. *)
Inductive third_place_view : Type :=
| ThirdWaiting
| ThirdMatch (sf1_loser sf2_loser third_place_winner : option string).

Record bracket_view : Type := BracketView {
  bv_round32 : list match_view;
  bv_round16 : list match_view;
  bv_quarters : list match_view;
  bv_semis : list match_view;
  bv_third : third_place_view;
  bv_final : match_view
}.

(** One run of the script: it stops after the first stage that reports
    issues, or renders the whole bracket. *)
Inductive page : Type :=
| GroupIssues (errors_groups : list string)
| ThirdIssues (errors_thirds : list string)
| Round32Error (err : option string)
| Bracket (view : bracket_view).

Definition fill_group_error (g : string) : string :=
  "Fill Group " +:+ g +:+ " correctly (no repetition and no empty fields).".

Definition err_thirds_undefined : string :=
  "All 12 third-placed teams must be defined first.".

Definition select_8_error (n : nat) : string :=
  "You must select exactly 8 third-placed teams (currently selected: "
  +:+ format_int (Z.of_nat n) +:+ ").".

Section UI.
Variable selectbox : string → list string → string.
Variable checkbox : string → bool.
Variable radio : string → list string → option string.

(** The [for i in range(4)] loop of one group. *)
Definition escolher_posicoes (g : string) (teams : list string) : list string :=
  foldl (λ (pos_choices : list string) (i : nat),
           let pos_num := i + 1 in
           let already_chosen := filter (λ c, c ≠ "-") pos_choices in
           let available_teams := filter (λ t, t ∉ already_chosen) teams in
           let options := "-" :: available_teams in
           let key := "group_" +:+ g +:+ "_pos_" +:+ format_int (Z.of_nat pos_num) in
           let choice := selectbox key options in
           pos_choices ++ [choice])
        [] (seq 0 4).

(** Body of the loop over [GROUP_NAMES]; [None] is a [KeyError] on
    [groups[g]]. *)
Definition classificar_grupo (groups : Dict.t (list string))
    (acc : option (Dict.t (list string) * list string)) (g : string)
  : option (Dict.t (list string) * list string) :=
  '(standings, errors) ← acc;
  teams ← Dict.get groups g;
  let pos_choices := escolher_posicoes g teams in
  if validar_permutacao pos_choices "-"
  then Some (Dict.set g pos_choices standings, errors)
  else Some (Dict.set g [] standings, errors ++ [fill_group_error g]).

Definition montar_classificacao_grupos (groups : Dict.t (list string))
  : option (Dict.t (list string) * list string) :=
  foldl (classificar_grupo groups) (Some ([], [])) GROUP_NAMES.

Definition escolher_top8_terceiros_ui (terceiros : list (string * string))
  : list (string * string) * list string :=
  if bool_decide (length terceiros ≠ 12) then ([], [err_thirds_undefined])
  else
    let selected :=
      foldl (λ (selected : list (string * string)) '(g, team),
               if checkbox ("third_" +:+ g) then selected ++ [(g, team)]
               else selected)
            [] terceiros in
    if bool_decide (length selected ≠ 8)
    then (selected, [select_8_error (length selected)])
    else (selected, []).

Definition escolher_vencedor_ui (match_id : string) (t1 t2 : option string)
  : option string :=
  if negb (truthy t1) || negb (truthy t2) then None
  else
    match t1, t2 with
    | Some t1, Some t2 => radio ("winner_" +:+ match_id) [t1; t2]
    | _, _ => None
    end.

(** Body of the loop over [order32]; [None] is a [KeyError] on
    [jogos_r32[mid]]. *)
Definition jogar_partida32 (jogos_r32 : gmap string jogo)
    (acc : option (gmap string (option string) * list match_view))
    (mid : string)
  : option (gmap string (option string) * list match_view) :=
  '(winners32, shown) ← acc;
  '(t1, t2, desc) ← jogos_r32 !! mid;
  let w := escolher_vencedor_ui mid t1 t2 in
  Some (<[mid := w]> winners32, shown ++ [MatchView mid desc t1 t2 w]).

Definition jogar_round32 (jogos_r32 : gmap string jogo)
  : option (gmap string (option string) * list match_view) :=
  foldl (jogar_partida32 jogos_r32) (Some (∅, [])) order32.

(** The loops over [ROUND16_MATCHES], [QUARTERS_MATCHES] and
    [SEMIS_MATCHES], which differ only in the table and in the winners of
    the round before. *)
Definition jogar_rodada (matches : Dict.t (string * string))
    (prev : gmap string (option string))
  : gmap string (option string) * list match_view :=
  foldl (λ (acc : gmap string (option string) * list match_view)
           '(mid, (m1, m2)),
           let '(winners, shown) := acc in
           let t1 := winners_get prev m1 in
           let t2 := winners_get prev m2 in
           let w := escolher_vencedor_ui mid t1 t2 in
           (<[mid := w]> winners,
            shown ++ [MatchView mid ("Winner " +:+ m1 +:+ " vs Winner " +:+ m2)
                                t1 t2 w]))
        (∅, []) (Dict.items matches).

(** [all([...])] on values of type [Optional[str]]. *)
Definition all_truthy (xs : list (option string)) : bool := forallb truthy xs.

(** The third-place column; [None] is a [KeyError] on [SEMIS_MATCHES[...]]. *)
Definition terceiro_lugar (winnersQ winnersS : gmap string (option string))
  : option third_place_view :=
  '(sf1_m1, sf1_m2) ← Dict.get SEMIS_MATCHES "M101";
  let sf1_t1 := winners_get winnersQ sf1_m1 in
  let sf1_t2 := winners_get winnersQ sf1_m2 in
  let sf1_winner := winners_get winnersS "M101" in
  '(sf2_m1, sf2_m2) ← Dict.get SEMIS_MATCHES "M102";
  let sf2_t1 := winners_get winnersQ sf2_m1 in
  let sf2_t2 := winners_get winnersQ sf2_m2 in
  let sf2_winner := winners_get winnersS "M102" in
  if all_truthy [sf1_t1; sf1_t2; sf1_winner; sf2_t1; sf2_t2; sf2_winner] then
    let sf1_loser := if decide (sf1_winner = sf1_t1) then sf1_t2 else sf1_t1 in
    let sf2_loser := if decide (sf2_winner = sf2_t1) then sf2_t2 else sf2_t1 in
    let third_place_winner :=
      escolher_vencedor_ui "M103 (Third Place)" sf1_loser sf2_loser in
    Some (ThirdMatch sf1_loser sf2_loser third_place_winner)
  else Some ThirdWaiting.

Definition jogo_final (winnersS : gmap string (option string)) : match_view :=
  let tf1 := winners_get winnersS "M101" in
  let tf2 := winners_get winnersS "M102" in
  let champion := escolher_vencedor_ui "M104 (Final)" tf1 tf2 in
  MatchView "M104 (Final)" "Final" tf1 tf2 champion.

(** Sections 3 to 7 of the page, from the round-of-32 games. *)
Definition chaveamento (jogos_r32 : gmap string jogo) : option bracket_view :=
  '(winners32, shown32) ← jogar_round32 jogos_r32;
  let '(winners16, shown16) := jogar_rodada ROUND16_MATCHES winners32 in
  let '(winnersQ, shownQ) := jogar_rodada QUARTERS_MATCHES winners16 in
  let '(winnersS, shownS) := jogar_rodada SEMIS_MATCHES winnersQ in
  third ← terceiro_lugar winnersQ winnersS;
  Some (BracketView shown32 shown16 shownQ shownS third (jogo_final winnersS)).

(** The script, top to bottom; [None] is an uncaught exception. *)
Definition app : option page :=
  '(standings, errors_groups) ← montar_classificacao_grupos INITIAL_GROUPS;
  if negb (bool_decide (errors_groups = [])) then Some (GroupIssues errors_groups)
  else
    let thirds := coletar_terceiros standings in
    let '(qualified_thirds, errors_thirds) := escolher_top8_terceiros_ui thirds in
    if negb (bool_decide (errors_thirds = [])) then Some (ThirdIssues errors_thirds)
    else
      '(jogos_r32, err) ← montar_round32 standings qualified_thirds;
      if truthy err then Some (Round32Error err)
      else Bracket <$> chaveamento jogos_r32.
End UI.

(** * Specification vocabulary *)

(** The suffix rule of [ordinal], in the words of the specification. *)
Inductive ordinal_suffix (n : Z) : string → Prop :=
| suffix_teens :
    (10 ≤ n mod 100 ≤ 20)%Z → ordinal_suffix n "th"
| suffix_st :
    ¬ (10 ≤ n mod 100 ≤ 20)%Z → (n mod 10 = 1)%Z → ordinal_suffix n "st"
| suffix_nd :
    ¬ (10 ≤ n mod 100 ≤ 20)%Z → (n mod 10 = 2)%Z → ordinal_suffix n "nd"
| suffix_rd :
    ¬ (10 ≤ n mod 100 ≤ 20)%Z → (n mod 10 = 3)%Z → ordinal_suffix n "rd"
| suffix_other :
    ¬ (10 ≤ n mod 100 ≤ 20)%Z →
    (n mod 10 ≠ 1)%Z → (n mod 10 ≠ 2)%Z → (n mod 10 ≠ 3)%Z →
    ordinal_suffix n "th".

(** A complete standing: four entries, no empty marker, no repetition. *)
Definition complete_standing (st : list string) : Prop :=
  length st = 4 ∧ ("-" ∉ st) ∧ NoDup st.

(** Every group of the standings holds a complete standing or nothing. *)
Definition standings_wf (standings : Dict.t (list string)) : Prop :=
  ∀ g st, Dict.get standings g = Some st → st = [] ∨ complete_standing st.

(** What holds of the standings and errors once the groups [gs] are done. *)
Definition standings_after (gs : list string)
    (standings : Dict.t (list string)) (errors : list string) : Prop :=
  Dict.keys standings = gs
  ∧ (∀ e, e ∈ errors → ∃ g, g ∈ gs ∧ e = fill_group_error g)
  ∧ ∀ g, g ∈ gs →
      ∃ st, Dict.get standings g = Some st
            ∧ (st = [] ∨ complete_standing st)
            ∧ (fill_group_error g ∈ errors ↔ st = []).

Definition position_chars : list ascii := ["1"; "2"; "3"; "4"]%char.

(** Index of the position written as the character [pos]. *)
Definition position_index (pos : ascii) : nat :=
  nat_of_ascii pos - nat_of_ascii "1".

(** When a seed code does not resolve: what the program tests. *)
Definition unresolved (code : string) (standings : Dict.t (list string)) : Prop :=
  String.length code ≠ 2
  ∨ ∃ pos group,
      code = String pos (String group EmptyString)
      ∧ (Dict.get standings (String group EmptyString) = None
         ∨ pos ∉ position_chars
         ∨ ∃ st, Dict.get standings (String group EmptyString) = Some st
                 ∧ length st ≠ 4).

(** When a seed code does not resolve: what the specification says. *)
Definition unresolved_as_specified
    (code : string) (standings : Dict.t (list string)) : Prop :=
  String.length code ≠ 2
  ∨ ∃ pos group,
      code = String pos (String group EmptyString)
      ∧ (Dict.get standings (String group EmptyString) = None
         ∨ pos ∉ position_chars
         ∨ ∃ st, Dict.get standings (String group EmptyString) = Some st
                 ∧ ¬ complete_standing st).

(** Source identifiers of a table of later-round matches. *)
Definition sources (matches : Dict.t (string * string)) : list string :=
  flat_map (λ '(_, (m1, m2)), [m1; m2]) matches.

Definition round32_ids : list string :=
  Dict.keys ROUND32_FIXED ++ Dict.keys ROUND32_THIRD_SLOTS.

Definition later_rounds : Dict.t (string * string) :=
  ROUND16_MATCHES ++ QUARTERS_MATCHES ++ SEMIS_MATCHES.

(** The later-round matches that take the winner of [m]. *)
Definition consumers (m : string) : list string :=
  (filter (λ e : string * (string * string), m = e.2.1 ∨ m = e.2.2) later_rounds).*1.

(** Round of a match identifier of the tables: 0 for the round of 32, up to
    3 for the semifinals. *)
Definition round_of (m : string) : option nat :=
  if bool_decide (m ∈ round32_ids) then Some 0
  else if bool_decide (m ∈ Dict.keys ROUND16_MATCHES) then Some 1
  else if bool_decide (m ∈ Dict.keys QUARTERS_MATCHES) then Some 2
  else if bool_decide (m ∈ Dict.keys SEMIS_MATCHES) then Some 3
  else None.

(** Both sources of a table entry belong to the round just before the
    round of the match they feed. *)
Definition feeds_upwards (e : string * (string * string)) : Prop :=
  match round_of e.2.1, round_of e.2.2, round_of e.1 with
  | Some r1, Some r2, Some r => r = S r1 ∧ r = S r2
  | _, _, _ => False
  end.

(** The [match_id] arguments of the calls of [escolher_vencedor_ui], in the
    order of the script. *)
Definition winner_match_ids : list string :=
  order32 ++ Dict.keys ROUND16_MATCHES ++ Dict.keys QUARTERS_MATCHES
  ++ Dict.keys SEMIS_MATCHES ++ ["M103 (Third Place)"; "M104 (Final)"].

(** The contract of [st.radio]: its value is one of its options. *)
Definition radio_picks_option
    (radio : string → list string → option string) : Prop :=
  ∀ key options w, radio key options = Some w → w ∈ options.

(** The third-place column as a match; while it waits it has no teams and
    no winner. *)
Definition third_as_match (third : third_place_view) : match_view :=
  match third with
  | ThirdWaiting =>
      MatchView "M103 (Third Place)" "Third Place Match" None None None
  | ThirdMatch sf1_loser sf2_loser third_place_winner =>
      MatchView "M103 (Third Place)" "Third Place Match"
                sf1_loser sf2_loser third_place_winner
  end.

(** Every match of a rendered bracket, in the order of the page. *)
Definition all_matches (view : bracket_view) : list match_view :=
  bv_round32 view ++ bv_round16 view ++ bv_quarters view ++ bv_semis view
  ++ [third_as_match (bv_third view); bv_final view].

(** Number of winner entries a rendered bracket can hold. *)
Definition winner_entries (view : bracket_view) : nat :=
  length (all_matches view).

(** The winner shown for a match is what [escolher_vencedor_ui] returned
    for its two teams. *)
Definition asked (radio : string → list string → option string)
    (mv : match_view) : Prop :=
  mv_winner mv
  = escolher_vencedor_ui radio (mv_id mv) (mv_team1 mv) (mv_team2 mv).

(** What one step of [jogar_rodada] shows for the table entry [e]. *)
Definition partida (radio : string → list string → option string)
    (prev : gmap string (option string)) (e : string * (string * string))
  : match_view :=
  let t1 := winners_get prev e.2.1 in
  let t2 := winners_get prev e.2.2 in
  MatchView e.1 ("Winner " +:+ e.2.1 +:+ " vs Winner " +:+ e.2.2) t1 t2
            (escolher_vencedor_ui radio e.1 t1 t2).

(** No winner without both teams, and a winner is one of the two teams. *)
Definition winner_sound (mv : match_view) : Prop :=
  (truthy (mv_team1 mv) = false ∨ truthy (mv_team2 mv) = false →
   mv_winner mv = None)
  ∧ ∀ w, mv_winner mv = Some w →
         truthy (mv_team1 mv) = true ∧ truthy (mv_team2 mv) = true
         ∧ (mv_team1 mv = Some w ∨ mv_team2 mv = Some w).

(** [l] is the participant of the semifinal [t1] against [t2] that is not
    its recorded winner [w]. *)
Definition other_participant (t1 t2 w l : option string) : Prop :=
  (w = t1 ∧ l = t2) ∨ (w = t2 ∧ l = t1).

(** The loser of a semifinal in any state: a participant, different from
    the recorded winner when the participants differ, and the other
    participant when the recorded winner is one of them. *)
Definition semifinal_loser (t1 t2 w l : option string) : Prop :=
  (l = t1 ∨ l = t2)
  ∧ (t1 ≠ t2 → l ≠ w)
  ∧ (w = t1 ∨ w = t2 → other_participant t1 t2 w l).

(** *** Matchings of qualified pairs and slots *)

(** The slot [mid] accepts the pair [q]: it is one of the 8 third-place
    slots and the pair's group is among its allowed groups. *)
Definition eligible (q : string * string) (mid : string) : Prop :=
  mid ∈ match_ids ∧ q.1 ∈ allowed_groups mid.

(** [mids] gives every pair of [qs], position by position, a slot that
    accepts it; no slot is given twice and none is in [used]. *)
Definition matching (used : gset string) (qs : list (string * string))
    (mids : list string) : Prop :=
  Forall2 eligible qs mids ∧ NoDup mids ∧ ∀ mid, mid ∈ mids → mid ∉ used.

(** The dictionary after [assignment[mid] = q] for the pairs and their
    slots, in order. *)
Fixpoint place (qs : list (string * string)) (mids : list string)
    (assignment : gmap string (string * string))
  : gmap string (string * string) :=
  match qs, mids with
  | q :: qs, mid :: mids => place qs mids (<[mid := q]> assignment)
  | _, _ => assignment
  end.

Fixpoint index_of (x : string) (l : list string) : nat :=
  match l with
  | [] => 0
  | y :: l => if decide (x = y) then 0 else S (index_of x l)
  end.

(** Position of a slot in the iteration order of [match_ids]. *)
Definition slot_pos (mid : string) : nat := index_of mid match_ids.

(** Lexicographic order on slot lists, by position in [match_ids]. *)
Inductive slots_lex_le : list string → list string → Prop :=
| lex_nil : slots_lex_le [] []
| lex_lt mid mid' mids mids' :
    slot_pos mid < slot_pos mid' →
    slots_lex_le (mid :: mids) (mid' :: mids')
| lex_eq mid mids mids' :
    slots_lex_le mids mids' →
    slots_lex_le (mid :: mids) (mid :: mids').

(** The search succeeded: it returns the first matching in lexicographic
    order, with the slots marked used and the pairs written down. *)
Definition search_found (qs : list (string * string))
    (used : gset string) (assignment : gmap string (string * string))
    (r : search_state) : Prop :=
  ∃ mids,
    matching used qs mids
    ∧ r = (true, list_to_set mids ∪ used, place qs mids assignment)
    ∧ ∀ mids', matching used qs mids' → slots_lex_le mids mids'.

(** The search failed: there is no matching, and both mutable objects are
    as they were. *)
Definition search_failed (qs : list (string * string))
    (used : gset string) (assignment : gmap string (string * string))
    (r : search_state) : Prop :=
  r = (false, used, assignment) ∧ ∀ mids, ¬ matching used qs mids.

(** *** Every choice of 8 groups *)

(** The sublists of [l] of length [k], in order. *)
Fixpoint subsets (k : nat) (l : list string) : list (list string) :=
  match k, l with
  | 0, _ => [[]]
  | S _, [] => []
  | S k', x :: l' => ((x ::.) <$> subsets k' l') ++ subsets k l'
  end.

(** Whether the search places third-placed teams of the groups [gs]; the
    team names play no part in the search. *)
Definition assignable (gs : list string) : bool :=
  (backtrack ((λ g, (g, "")) <$> gs) ∅ ∅).1.1.

(** *** A session used in the examples *)

(** An operator who ranks every group in the configured order, qualifies the
    third-placed teams of groups A to H and always picks the first team. *)
Definition selectbox_first (key : string) (options : list string) : string :=
  default "-" (options !! 1).

Definition checkbox_A_to_H (key : string) : bool :=
  bool_decide (key ∈ ["third_A"; "third_B"; "third_C"; "third_D";
                      "third_E"; "third_F"; "third_G"; "third_H"]).

Definition radio_first (key : string) (options : list string) : option string :=
  head options.

(** Group A as ranked in the examples of the specification. *)
Definition standings_example : Dict.t (list string) :=
  [("A", ["Mexico"; "South Africa"; "South Korea"; "UEFA D"])].

Definition qualified_example : list (string * string) :=
  [ ("A", "South Korea"); ("B", "Qatar"); ("C", "Haiti"); ("D", "Australia");
    ("E", "Ivory Coast"); ("F", "UEFA B (UKR/SWE/POL/ALB)"); ("G", "Iran");
    ("H", "Saudi Arabia") ].

Definition mids_example : list string :=
  ["M74"; "M81"; "M77"; "M87"; "M80"; "M79"; "M85"; "M82"].

(** Group K is accepted by M80 only, so two pairs of group K cannot both be
    placed. *)
Definition unassignable_example : list (string * string) :=
  [ ("K", "Uzbekistan"); ("K", "Colombia"); ("C", "Haiti"); ("D", "Australia");
    ("E", "Ivory Coast"); ("F", "UEFA B (UKR/SWE/POL/ALB)"); ("G", "Iran");
    ("H", "Saudi Arabia") ].

Definition jogos_example : gmap string jogo :=
  match montar_round32 INITIAL_GROUPS qualified_example with
  | Some (jogos, _) => jogos
  | None => ∅
  end.

Definition view_example : bracket_view :=
  default (BracketView [] [] [] [] ThirdWaiting (MatchView "" "" None None None))
          (chaveamento radio_first jogos_example).

(** *** Vocabulary for the rest of the script *)

(** The contract of [st.selectbox]: its value is one of its options, when
    there is any. *)
Definition selectbox_picks_option
    (selectbox : string → list string → string) : Prop :=
  ∀ key options, options ≠ [] → selectbox key options ∈ options.

(** The standing the loop of [montar_classificacao_grupos] stores for the
    group [g]: its four choices when they are valid, else the empty list. *)
Definition standing_of (selectbox : string → list string → string)
    (groups : Dict.t (list string)) (g : string) : list string :=
  match Dict.get groups g with
  | Some teams =>
      let pos_choices := escolher_posicoes selectbox g teams in
      if validar_permutacao pos_choices "-" then pos_choices else []
  | None => []
  end.

(** A select box filled like [selectbox_first], that falls back on the only
    option when there is no second one. *)
Definition selectbox_second (key : string) (options : list string) : string :=
  match options with
  | _ :: team :: _ => team
  | marker :: _ => marker
  | [] => "-"
  end.

(** What the loop over [order32] shows for the match [mid], when
    [jogos_r32] has it. *)
Definition partida32 (radio : string → list string → option string)
    (jogos_r32 : gmap string jogo) (mid : string) : option match_view :=
  '(t1, t2, desc) ← jogos_r32 !! mid;
  Some (MatchView mid desc t1 t2 (escolher_vencedor_ui radio mid t1 t2)).

(** The team [o], if any, plays one of the matches [shown]. *)
Definition plays_in (shown : list match_view) (o : option string) : Prop :=
  ∀ t, o = Some t →
       ∃ mv, mv ∈ shown ∧ (mv_team1 mv = Some t ∨ mv_team2 mv = Some t).

(** Every match of [mids] is a source of a match of the table [next]. *)
Definition all_feed (mids : list string) (next : Dict.t (string * string))
  : Prop :=
  Forall (λ mid, Exists (λ e : string * (string * string),
                           mid = e.2.1 ∨ mid = e.2.2) next) mids.

(** A seed code of the tables: a position and one of the 12 groups. *)
Definition seed_code (code : string) : Prop :=
  ∃ pos group,
    code = String pos (String group EmptyString)
    ∧ pos ∈ position_chars
    ∧ String group EmptyString ∈ GROUP_NAMES.

(** A standing that resolves to real teams: four non-empty names. *)
Definition named_standing (st : list string) : Prop :=
  length st = 4 ∧ Forall (λ t, t ≠ "") st.

(** What a page may be when the script ends: issues of some groups, a wrong
    number of qualified third-placed teams, or the bracket. *)
Definition page_expected (p : page) : Prop :=
  match p with
  | GroupIssues errors_groups =>
      errors_groups ≠ []
      ∧ ∀ e, e ∈ errors_groups → ∃ g, g ∈ GROUP_NAMES ∧ e = fill_group_error g
  | ThirdIssues errors_thirds =>
      ∃ n, n ≠ 8 ∧ n ≤ 12 ∧ errors_thirds = [select_8_error n]
  | Round32Error _ => False
  | Bracket _ => True
  end.

(** * Properties *)

(** ** The example session *)

Lemma radio_first_picks_option : radio_picks_option radio_first.
Proof.
  intros key [|x options] w; [done|]. intros [= ->]. by left.
Qed.

Lemma chaveamento_example :
  chaveamento radio_first jogos_example = Some view_example.
Proof. vm_compute. reflexivity. Qed.

Lemma GROUP_NAMES_eq :
  GROUP_NAMES = ["A"; "B"; "C"; "D"; "E"; "F"; "G"; "H"; "I"; "J"; "K"; "L"].
Proof. reflexivity. Qed.

Lemma GROUP_NAMES_NoDup : NoDup GROUP_NAMES.
Proof. compute_done. Qed.

Lemma INITIAL_GROUPS_total g :
  g ∈ GROUP_NAMES → is_Some (Dict.get INITIAL_GROUPS g).
Proof.
  rewrite GROUP_NAMES_eq, !elem_of_cons, elem_of_nil.
  intros H; repeat (destruct H as [->|H]; [by eexists|]); done.
Qed.

(** ** The functions on small inputs *)

Example ordinal_negative : ordinal (-1) = "-1th" ∧ ordinal 111 = "111th".
Proof. split; reflexivity. Qed.

Example validar_permutacao_examples :
  validar_permutacao ["Brazil"; "Haiti"; "Scotland"; "Morrocco"] "-" = true
  ∧ validar_permutacao ["Brazil"; "-"; "Scotland"; "Morrocco"] "-" = false
  ∧ validar_permutacao ["Brazil"; "Haiti"; "Brazil"; "Morrocco"] "-" = false.
Proof. repeat split; vm_compute; reflexivity. Qed.

Example coletar_terceiros_example :
  coletar_terceiros
    [("A", ["a1"; "a2"; "a3"; "a4"]); ("B", []); ("C", ["c1"; "c2"; "c3"; "c4"])]
  = [("A", "a3"); ("C", "c3")].
Proof. reflexivity. Qed.

Example extrair_time_examples :
  extrair_time "3A" standings_example = Some "South Korea"
  ∧ extrair_time "3" standings_example = None
  ∧ extrair_time "3AB" standings_example = None
  ∧ extrair_time "3A" [("A", [])] = None.
Proof. repeat split; reflexivity. Qed.

(** The search first gives M79 to group E, fails on group G, and comes back
    to give M80 to group E and M79 to group F. *)
Example distribuir_terceiros_nos_jogos_example :
  (let '(assignment, err) := distribuir_terceiros_nos_jogos qualified_example in
   ((λ a : gmap string (string * string), (a !!.) <$> match_ids) <$> assignment,
    err))
  = (Some [Some ("A", "South Korea"); Some ("C", "Haiti");
           Some ("F", "UEFA B (UKR/SWE/POL/ALB)"); Some ("E", "Ivory Coast");
           Some ("B", "Qatar"); Some ("H", "Saudi Arabia"); Some ("G", "Iran");
           Some ("D", "Australia")],
     None).
Proof. vm_compute. reflexivity. Qed.

Example escolher_vencedor_ui_examples :
  escolher_vencedor_ui radio_first "M73" (Some "Mexico") (Some "Canada")
  = Some "Mexico"
  ∧ escolher_vencedor_ui radio_first "M73" (Some "") (Some "Canada") = None
  ∧ escolher_vencedor_ui radio_first "M73" None (Some "Canada") = None.
Proof. repeat split; reflexivity. Qed.

Example view_example_third_place :
  bv_semis view_example
  = [ MatchView "M101" "Winner M97 vs Winner M98"
                (Some "Germany") (Some "IC1 (NCL/JAM/COD)") (Some "Germany");
      MatchView "M102" "Winner M99 vs Winner M100"
                (Some "Brazil") (Some "Argentina") (Some "Brazil") ]
  ∧ bv_third view_example
    = ThirdMatch (Some "IC1 (NCL/JAM/COD)") (Some "Argentina")
                 (Some "IC1 (NCL/JAM/COD)").
Proof. split; vm_compute; reflexivity. Qed.

Example app_example :
  app selectbox_first checkbox_A_to_H radio_first = Some (Bracket view_example)
  ∧ app (λ _ _, "-") checkbox_A_to_H radio_first
    = Some (GroupIssues (fill_group_error <$> GROUP_NAMES))
  ∧ app selectbox_first (λ _, true) radio_first
    = Some (ThirdIssues [select_8_error 12]).
Proof. repeat split; vm_compute; reflexivity. Qed.

(** ** Utilities *)

(** [format_int] writes the decimal numeral of [n]: reading it back gives
    [n]. *)
Lemma format_int_reads_back (n : Z) :
  Z.of_int <$> NilZero.int_of_string (format_int n) = Some n.
Proof.
  unfold format_int. rewrite NilZero.isi.
  - simpl. f_equal. apply DecimalZ.of_to.
  - destruct n; simpl; try discriminate.
    intros [= H]. by apply (DecimalPos.Unsigned.to_uint_nonnil p).
  - destruct n; simpl; try discriminate.
    intros [= H]. by apply (DecimalPos.Unsigned.to_uint_nonnil p).
Qed.

(** C7. [ordinal n] is the decimal rendering of [n] followed by "th" when
    [n % 100] lies in 10..20, otherwise by "st", "nd" or "rd" when [n % 10]
    is 1, 2 or 3, otherwise by "th"; it gives 1st..4th, 11th..13th and
    21st..23rd on those numbers. *)
Theorem ordinal_spec :
  (∀ n : Z, ∃ suffix,
      ordinal n = format_int n +:+ suffix ∧ ordinal_suffix n suffix)
  ∧ ordinal <$> [1; 2; 3; 4]%Z = ["1st"; "2nd"; "3rd"; "4th"]
  ∧ ordinal <$> [11; 12; 13]%Z = ["11th"; "12th"; "13th"]
  ∧ ordinal <$> [21; 22; 23]%Z = ["21st"; "22nd"; "23rd"].
Proof.
  split; [|repeat split; reflexivity].
  intros n. unfold ordinal.
  destruct ((10 <=? n mod 100)%Z && (n mod 100 <=? 20)%Z) eqn:Hteen.
  - exists "th". split; [done|]. apply suffix_teens. lia.
  - assert (Hn : ¬ (10 ≤ n mod 100 ≤ 20)%Z) by lia.
    cbn [int_dict_get].
    repeat case_decide.
    + exists "st". split; [done|]. by apply suffix_st.
    + exists "nd". split; [done|]. by apply suffix_nd.
    + exists "rd". split; [done|]. by apply suffix_rd.
    + exists "th". split; [done|]. by apply suffix_other.
Qed.

Lemma size_list_to_set_le (l : list string) :
  size (list_to_set l : gset string) ≤ length l.
Proof.
  induction l as [|x l IH]; cbn [list_to_set foldr length].
  - by rewrite size_empty.
  - destruct (decide (x ∈ (list_to_set l : gset string))) as [Hin|Hout].
    + assert ({[x]} ∪ list_to_set l = (list_to_set l : gset string)) as ->.
      { apply set_eq. intros y. rewrite elem_of_union, elem_of_singleton.
        split; [by intros [->|?] | by right]. }
      lia.
    + rewrite size_union, size_singleton; [lia|].
      intros y. rewrite elem_of_singleton. by intros ->.
Qed.

Lemma size_list_to_set_NoDup (l : list string) :
  length l = size (list_to_set l : gset string) ↔ NoDup l.
Proof.
  split; [|intros; symmetry; by apply size_list_to_set].
  induction l as [|x l IH]; cbn [list_to_set foldr length]; [constructor|].
  intros Hlen.
  destruct (decide (x ∈ l)) as [Hin|Hout].
  - exfalso.
    assert ({[x]} ∪ list_to_set l = (list_to_set l : gset string)) as Heq.
    { apply set_eq. intros y.
      rewrite elem_of_union, elem_of_singleton, elem_of_list_to_set.
      split; [by intros [->|?] | by right]. }
    rewrite Heq in Hlen.
    pose proof (size_list_to_set_le l). lia.
  - constructor; [done|]. apply IH.
    rewrite size_union, size_singleton in Hlen; [lia|].
    intros y. rewrite elem_of_singleton, elem_of_list_to_set. by intros ->.
Qed.

Lemma validar_permutacao_true (choices : list string) (empty : string) :
  validar_permutacao choices empty = true → (empty ∉ choices) ∧ NoDup choices.
Proof.
  unfold validar_permutacao. case_bool_decide as Hin; [done|].
  intros Hsize%bool_decide_eq_true. split; [done|].
  by apply size_list_to_set_NoDup.
Qed.

(** C8. [validar_permutacao choices empty] holds exactly when no entry is
    the empty marker and the entries are pairwise distinct. *)
Theorem validar_permutacao_spec (choices : list string) (empty : string) :
  validar_permutacao choices empty = true ↔ (empty ∉ choices) ∧ NoDup choices.
Proof.
  unfold validar_permutacao. case_bool_decide as Hin.
  - split; [done|]. by intros [? _].
  - rewrite bool_decide_eq_true, size_list_to_set_NoDup. tauto.
Qed.

(** ** Seed codes *)

Lemma position_lookup (pos : ascii) :
  (pos ∈ position_chars
   ∧ char_dict_get [("1"%char, 0); ("2"%char, 1); ("3"%char, 2); ("4"%char, 3)] pos
     = Some (position_index pos)
   ∧ position_index pos < 4)
  ∨ ((pos ∉ position_chars)
     ∧ char_dict_get [("1"%char, 0); ("2"%char, 1); ("3"%char, 2); ("4"%char, 3)] pos
       = None).
Proof.
  unfold position_chars. cbn [char_dict_get].
  repeat case_decide; subst;
    [left; split; [set_solver|split; [reflexivity|vm_compute; lia]] ..|].
  right. split; [|done].
  rewrite !elem_of_cons, elem_of_nil. tauto.
Qed.

Lemma extrair_time_other_length code standings :
  String.length code ≠ 2 → extrair_time code standings = None.
Proof. intros Hlen. unfold extrair_time. by rewrite bool_decide_eq_true_2. Qed.

Lemma extrair_time_two_chars_unfold pos group standings :
  extrair_time (String pos (String group EmptyString)) standings
  = match Dict.get standings (String group EmptyString) with
    | None => None
    | Some st =>
        if bool_decide (length st ≠ 4) then None
        else
          match char_dict_get
                  [("1"%char, 0); ("2"%char, 1); ("3"%char, 2); ("4"%char, 3)]
                  pos with
          | None => None
          | Some idx => st !! idx
          end
    end.
Proof. reflexivity. Qed.

Lemma extrair_time_two_chars pos group standings :
  extrair_time (String pos (String group EmptyString)) standings = None
  ↔ Dict.get standings (String group EmptyString) = None
    ∨ (pos ∉ position_chars)
    ∨ ∃ st, Dict.get standings (String group EmptyString) = Some st
            ∧ length st ≠ 4.
Proof.
  rewrite extrair_time_two_chars_unfold.
  destruct (Dict.get standings (String group EmptyString)) as [st|] eqn:Hget;
    [|by split; [left|]].
  case_bool_decide as Hlen.
  { split; [|done]. intros _. right; right. by exists st. }
  destruct (position_lookup pos) as [(Hin & -> & Hlt)|[Hout ->]].
  - split.
    + intros Hnone. apply lookup_ge_None in Hnone. lia.
    + intros [|[|(st' & [= <-] & ?)]]; done.
  - split; [|done]. intros _. right; by left.
Qed.

Lemma unresolved_two_chars (P : list string → Prop) pos group standings :
  (String.length (String pos (String group EmptyString)) ≠ 2
   ∨ ∃ pos' group',
       String pos (String group EmptyString)
       = String pos' (String group' EmptyString)
       ∧ (Dict.get standings (String group' EmptyString) = None
          ∨ (pos' ∉ position_chars)
          ∨ ∃ st, Dict.get standings (String group' EmptyString) = Some st
                  ∧ P st))
  ↔ Dict.get standings (String group EmptyString) = None
    ∨ (pos ∉ position_chars)
    ∨ ∃ st, Dict.get standings (String group EmptyString) = Some st ∧ P st.
Proof.
  split.
  - intros [Hlen|(pos' & group' & [= <- <-] & H)]; [by cbn in Hlen|done].
  - intros H. right. by exists pos, group.
Qed.

Lemma extrair_time_unresolved (code : string) (standings : Dict.t (list string)) :
  extrair_time code standings = None ↔ unresolved code standings.
Proof.
  destruct code as [|pos [|group [|c rest]]].
  - rewrite extrair_time_other_length by done. split; [by left|done].
  - rewrite extrair_time_other_length by done. split; [by left|done].
  - unfold unresolved.
    rewrite (unresolved_two_chars (λ st, length st ≠ 4)).
    apply extrair_time_two_chars.
  - rewrite extrair_time_other_length by done. split; [by left|done].
Qed.

(** C3, as amended. [extrair_time] gives [None] exactly when the code has
    not 2 characters, the group is no key of the standings, the position is
    none of 1, 2, 3, 4, or the group's standing has not exactly 4 entries;
    otherwise it gives the team stored at the coded position.  When every
    standing is empty or complete (as [montar_classificacao_grupos] builds
    them), "not exactly 4 entries" is the same as "not complete". *)
Theorem extrair_time_spec (code : string) (standings : Dict.t (list string)) :
  (extrair_time code standings = None ↔ unresolved code standings)
  ∧ (∀ pos group st,
       code = String pos (String group EmptyString) →
       Dict.get standings (String group EmptyString) = Some st →
       length st = 4 →
       pos ∈ position_chars →
       is_Some (st !! position_index pos)
       ∧ extrair_time code standings = st !! position_index pos)
  ∧ (standings_wf standings →
     extrair_time code standings = None
     ↔ unresolved_as_specified code standings).
Proof.
  split; [apply extrair_time_unresolved|]. split.
  - intros pos group st -> Hget Hlen Hpos. rewrite extrair_time_two_chars_unfold.
    rewrite Hget, bool_decide_eq_false_2 by (intros ?; lia).
    destruct (position_lookup pos) as [(_ & -> & Hlt)|[? _]]; [|done].
    split; [|done]. apply lookup_lt_is_Some. lia.
  - intros Hwf. rewrite extrair_time_unresolved.
    destruct code as [|pos [|group [|c rest]]];
      [split; by left | split; by left | | split; by left].
    unfold unresolved, unresolved_as_specified.
    rewrite (unresolved_two_chars (λ st, length st ≠ 4)).
    rewrite (unresolved_two_chars (λ st, ¬ complete_standing st)).
    split.
    + intros [?|[?|(st & Hget & Hlen)]]; [by left|by right; left|].
      right; right. exists st. split; [done|]. by intros [? _].
    + intros [?|[?|(st & Hget & Hinc)]]; [by left|by right; left|].
      right; right. exists st. split; [done|].
      destruct (Hwf _ _ Hget) as [->|Hc]; [by cbn|done].
Qed.

Lemma standings_example_wf : standings_wf standings_example.
Proof.
  intros g st. unfold standings_example. cbn [Dict.get].
  case_decide; [|done]. intros [= <-]. right.
  split; [done|]. split.
  - rewrite !elem_of_cons, elem_of_nil. intros [|[|[|[|]]]]; done.
  - compute_done.
Qed.

(** The examples of the specification: "2A" is South Africa, "5A" and "2Z"
    do not resolve. *)
Lemma extrair_time_spec_witness :
  extrair_time "2A" standings_example = Some "South Africa"
  ∧ extrair_time "5A" standings_example = None
  ∧ extrair_time "2Z" standings_example = None
  ∧ unresolved_as_specified "2Z" standings_example.
Proof.
  split; [|split; [|split]].
  - destruct (extrair_time_spec "2A" standings_example) as (_ & Hres & _).
    destruct (Hres "2"%char "A"%char
                ["Mexico"; "South Africa"; "South Korea"; "UEFA D"])
      as [_ ->]; [reflexivity | reflexivity | reflexivity | | reflexivity].
    unfold position_chars. apply elem_of_cons. right. apply elem_of_cons. by left.
  - destruct (extrair_time_spec "5A" standings_example) as ([_ Hback] & _ & _).
    apply Hback. right. exists "5"%char, "A"%char. split; [reflexivity|].
    right; left. unfold position_chars.
    rewrite !elem_of_cons, elem_of_nil. intros [|[|[|[|]]]]; done.
  - destruct (extrair_time_spec "2Z" standings_example) as ([_ Hback] & _ & _).
    apply Hback. right. exists "2"%char, "Z"%char. split; [reflexivity|]. by left.
  - destruct (extrair_time_spec "2Z" standings_example) as (_ & _ & Hspec).
    apply (Hspec standings_example_wf). reflexivity.
Defined.

(** C3, as stated, fails: a standing of 4 entries with a repetition and an
    empty marker is not complete, and its seed codes still resolve. *)
Lemma extrair_time_incomplete_standing :
  let standings := [("A", ["Mexico"; "Mexico"; "South Korea"; "-"])] in
  extrair_time "2A" standings = Some "Mexico"
  ∧ unresolved_as_specified "2A" standings.
Proof.
  split; [reflexivity|].
  right. exists "2"%char, "A"%char. split; [reflexivity|].
  right; right. eexists. split; [reflexivity|].
  intros (_ & Hmarker & _). apply Hmarker.
  rewrite !elem_of_cons. tauto.
Qed.

(** ** Static bracket tables *)

Lemma bracket_tables_ids :
  NoDup round32_ids ∧ round32_ids ≡ₚ order32.
Proof. split; compute_done. Qed.

(** C10. The sources of [ROUND16_MATCHES] are the 16 round-of-32
    identifiers, those of [QUARTERS_MATCHES] the 8 round-of-16 identifiers
    and those of [SEMIS_MATCHES] the 4 quarterfinal identifiers, each exactly
    once; every such match is taken by exactly one later match, and every
    edge leads from one round to the next, so the tables form a tree. *)
Theorem bracket_tables_tree :
  sources ROUND16_MATCHES ≡ₚ round32_ids
  ∧ sources QUARTERS_MATCHES ≡ₚ Dict.keys ROUND16_MATCHES
  ∧ sources SEMIS_MATCHES ≡ₚ Dict.keys QUARTERS_MATCHES
  ∧ NoDup (round32_ids ++ Dict.keys ROUND16_MATCHES
           ++ Dict.keys QUARTERS_MATCHES ++ Dict.keys SEMIS_MATCHES)
  ∧ length (sources ROUND16_MATCHES) = 16
  ∧ length (sources QUARTERS_MATCHES) = 8
  ∧ length (sources SEMIS_MATCHES) = 4
  ∧ round32_ids ≡ₚ order32
  ∧ Forall (λ m, ∃ c, consumers m = [c])
           (round32_ids ++ Dict.keys ROUND16_MATCHES ++ Dict.keys QUARTERS_MATCHES)
  ∧ Forall feeds_upwards later_rounds.
Proof.
  split; [compute_done|]. split; [compute_done|]. split; [compute_done|].
  split; [compute_done|]. split; [reflexivity|]. split; [reflexivity|].
  split; [reflexivity|]. split; [compute_done|]. split.
  - repeat (apply Forall_cons; split; [eexists; vm_compute; reflexivity|]).
    apply Forall_nil_2.
  - repeat (apply Forall_cons; split; [vm_compute; split; reflexivity|]).
    apply Forall_nil_2.
Qed.

(** C6, as stated, fails: the script asks for 32 winners, not 56; the
    round of 32 has 16 matches and the round of 16 has 8. *)
Lemma winner_entries_not_56 :
  length winner_match_ids ≠ 56
  ∧ length order32 ≠ 32
  ∧ length (Dict.keys ROUND16_MATCHES) ≠ 16.
Proof. repeat split; vm_compute; lia. Qed.

(** ** Ordered dictionaries *)

Section dict_facts.
Context {V : Type}.
Implicit Types (d : Dict.t V) (k : string) (v : V).

Lemma dict_get_set_eq d k v : Dict.get (Dict.set k v d) k = Some v.
Proof.
  induction d as [|[k' v'] d IH]; cbn [Dict.set Dict.get].
  - by rewrite decide_True.
  - case_decide as Hk; cbn [Dict.get].
    + by rewrite decide_True.
    + by rewrite decide_False.
Qed.

Lemma dict_get_set_ne d k k' v :
  k ≠ k' → Dict.get (Dict.set k v d) k' = Dict.get d k'.
Proof.
  intros Hne. induction d as [|[k0 v0] d IH]; cbn [Dict.set Dict.get].
  - by rewrite decide_False.
  - case_decide as Hk; cbn [Dict.get]; [subst k0|by rewrite IH].
    by rewrite !decide_False.
Qed.

Lemma dict_keys_set_new d k v :
  k ∉ Dict.keys d → Dict.keys (Dict.set k v d) = Dict.keys d ++ [k].
Proof.
  unfold Dict.keys.
  induction d as [|[k' v'] d IH]; cbn [Dict.set fmap list_fmap fst app];
    [done|].
  rewrite not_elem_of_cons. intros [Hne Hout].
  rewrite decide_False by done. cbn [fmap list_fmap fst]. by rewrite IH.
Qed.

Lemma dict_get_None d k : Dict.get d k = None ↔ k ∉ Dict.keys d.
Proof.
  unfold Dict.keys.
  induction d as [|[k' v'] d IH]; cbn [Dict.get fmap list_fmap fst].
  - split; [intros _; apply not_elem_of_nil|done].
  - rewrite not_elem_of_cons. case_decide as Hk.
    + split; [done|]. by intros [? _].
    + rewrite IH. tauto.
Qed.
End dict_facts.

(** ** Group standings *)

Lemma string_app_length (s t : string) :
  String.length (s +:+ t) = String.length s + String.length t.
Proof.
  induction s as [|c s IH]; [done|].
  change (S (String.length (s +:+ t)) = S (String.length s + String.length t)).
  by f_equal.
Qed.

Lemma string_app_inv_tail (s1 s2 t : string) :
  s1 +:+ t = s2 +:+ t → s1 = s2.
Proof.
  revert s2. induction s1 as [|c s1 IH]; intros [|c' s2] Heq; [done|..].
  - apply (f_equal String.length) in Heq.
    rewrite !string_app_length in Heq. cbn [String.length] in Heq. lia.
  - apply (f_equal String.length) in Heq.
    rewrite !string_app_length in Heq. cbn [String.length] in Heq. lia.
  - change (String c (s1 +:+ t) = String c' (s2 +:+ t)) in Heq.
    injection Heq as -> Heq. f_equal. by apply IH.
Qed.

Lemma fill_group_error_inj (g1 g2 : string) :
  fill_group_error g1 = fill_group_error g2 → g1 = g2.
Proof.
  unfold fill_group_error. intros Heq.
  apply String.app_inj in Heq. by apply string_app_inv_tail in Heq.
Qed.

Section standings_facts.
Variable selectbox : string → list string → string.

Lemma escolher_posicoes_length g teams :
  length (escolher_posicoes selectbox g teams) = 4.
Proof. unfold escolher_posicoes. cbn [seq foldl]. by rewrite !length_app. Qed.

Lemma montar_classificacao_grupos_prefix groups gs :
  NoDup gs →
  (∀ g, g ∈ gs → is_Some (Dict.get groups g)) →
  ∃ standings errors,
    foldl (classificar_grupo selectbox groups) (Some ([], [])) gs
    = Some (standings, errors)
    ∧ standings_after gs standings errors.
Proof.
  induction gs as [|g gs IH] using rev_ind; intros Hnd Hgroups.
  { exists [], []. split; [done|]. split; [done|].
    split; intros ? Hin; by apply elem_of_nil in Hin. }
  apply NoDup_app in Hnd as (Hnd & Hfresh & _).
  assert (g ∉ gs) as Hg.
  { intros Hin. apply (Hfresh _ Hin). by apply list_elem_of_singleton. }
  destruct IH as (standings & errors & Hfold & Hkeys & Herrs & Hinv);
    [done | by intros; apply Hgroups, elem_of_app; left |].
  rewrite foldl_snoc, Hfold. unfold classificar_grupo. cbn [mbind option_bind].
  destruct (Hgroups g) as [teams ->]; [apply elem_of_app; right; by left|].
  cbn [mbind option_bind].
  pose proof (escolher_posicoes_length g teams) as Hlen.
  assert (fill_group_error g ∉ errors) as Hnew.
  { intros (g' & Hin' & Heq)%Herrs. apply fill_group_error_inj in Heq.
    by subst g'. }
  destruct (validar_permutacao _ "-") eqn:Hvalid.
  - apply validar_permutacao_true in Hvalid as [Hmarker Hdistinct].
    eexists _, _. split; [done|]. split; [|split].
    + rewrite dict_keys_set_new; by rewrite Hkeys.
    + intros e (g' & Hin' & ->)%Herrs. exists g'.
      split; [apply elem_of_app; by left|done].
    + intros g' [Hin'|Heq%list_elem_of_singleton]%elem_of_app; [|subst g'].
      * rewrite dict_get_set_ne by (by intros ->). by apply Hinv.
      * rewrite dict_get_set_eq. eexists. split; [done|]. split.
        -- by right.
        -- split; [done|]. intros Hnil. by rewrite Hnil in Hlen.
  - eexists _, _. split; [done|]. split; [|split].
    + rewrite dict_keys_set_new; by rewrite Hkeys.
    + intros e [(g' & Hin' & ->)%Herrs|Heq%list_elem_of_singleton]%elem_of_app;
        [|subst e].
      * exists g'. split; [apply elem_of_app; by left|done].
      * exists g. split; [apply elem_of_app; right; by left|done].
    + intros g' [Hin'|Heq%list_elem_of_singleton]%elem_of_app; [|subst g'].
      * rewrite dict_get_set_ne by (by intros ->).
        destruct (Hinv g' Hin') as (st & Hget & Hst & Herr).
        exists st. split; [done|]. split; [done|].
        rewrite elem_of_app, list_elem_of_singleton, <- Herr.
        split; [|by left]. intros [?|Heq]; [done|].
        apply fill_group_error_inj in Heq. by subst g'.
      * rewrite dict_get_set_eq. exists []. split; [done|].
        split; [by left|]. split; [done|]. intros _.
        apply elem_of_app. right. by left.
Qed.
End standings_facts.

(** C9. When [groups] configures every group, [montar_classificacao_grupos]
    returns standings that bind every group either to a complete standing
    (4 entries, no empty marker, no repetition) or to the empty list, and
    the error of a group is reported exactly when it is bound to the empty
    list; the errors are those of the groups and nothing else. *)
Theorem montar_classificacao_grupos_invariant
    (selectbox : string → list string → string)
    (groups : Dict.t (list string)) :
  (∀ g, g ∈ GROUP_NAMES → is_Some (Dict.get groups g)) →
  ∃ standings errors,
    montar_classificacao_grupos selectbox groups = Some (standings, errors)
    ∧ Dict.keys standings = GROUP_NAMES
    ∧ standings_wf standings
    ∧ (∀ e, e ∈ errors → ∃ g, g ∈ GROUP_NAMES ∧ e = fill_group_error g)
    ∧ ∀ g, g ∈ GROUP_NAMES →
        ∃ st, Dict.get standings g = Some st
              ∧ (st = [] ∨ complete_standing st)
              ∧ (fill_group_error g ∈ errors ↔ st = []).
Proof.
  intros Hgroups.
  destruct (montar_classificacao_grupos_prefix selectbox groups GROUP_NAMES
              GROUP_NAMES_NoDup Hgroups)
    as (standings & errors & Hfold & Hkeys & Herrs & Hinv).
  exists standings, errors. split; [exact Hfold|].
  split; [done|]. split; [|done].
  intros g st Hget.
  assert (g ∈ GROUP_NAMES) as Hin.
  { rewrite <- Hkeys. apply dec_stable. intros Hout.
    apply dict_get_None in Hout. congruence. }
  destruct (Hinv g Hin) as (st' & Hget' & Hst & _). congruence.
Qed.

Lemma montar_classificacao_grupos_invariant_witness :
  ∃ standings errors,
    montar_classificacao_grupos selectbox_first INITIAL_GROUPS
    = Some (standings, errors)
    ∧ Dict.keys standings = GROUP_NAMES
    ∧ standings_wf standings
    ∧ (∀ e, e ∈ errors → ∃ g, g ∈ GROUP_NAMES ∧ e = fill_group_error g)
    ∧ ∀ g, g ∈ GROUP_NAMES →
        ∃ st, Dict.get standings g = Some st
              ∧ (st = [] ∨ complete_standing st)
              ∧ (fill_group_error g ∈ errors ↔ st = []).
Proof.
  exact (montar_classificacao_grupos_invariant selectbox_first INITIAL_GROUPS
           INITIAL_GROUPS_total).
Defined.

(** ** Picking winners *)

Section bracket_facts.
Variable radio : string → list string → option string.

Lemma escolher_vencedor_ui_pending match_id t1 t2 :
  truthy t1 = false ∨ truthy t2 = false →
  escolher_vencedor_ui radio match_id t1 t2 = None.
Proof. unfold escolher_vencedor_ui. by intros [->| ->]; rewrite ?orb_true_r. Qed.

Lemma escolher_vencedor_ui_chosen match_id t1 t2 w :
  radio_picks_option radio →
  escolher_vencedor_ui radio match_id t1 t2 = Some w →
  truthy t1 = true ∧ truthy t2 = true ∧ (t1 = Some w ∨ t2 = Some w).
Proof.
  intros Hradio. unfold escolher_vencedor_ui.
  destruct (truthy t1) eqn:H1, (truthy t2) eqn:H2; try done.
  destruct t1 as [n1|], t2 as [n2|]; try done. cbn [negb orb].
  intros Hw%Hradio. split; [done|]. split; [done|].
  apply elem_of_cons in Hw as [->|Hw]; [by left|].
  apply list_elem_of_singleton in Hw as ->. by right.
Qed.

Lemma asked_winner_sound mv :
  radio_picks_option radio → asked radio mv → winner_sound mv.
Proof.
  unfold asked. intros Hradio Hmv. split.
  - intros Hpending. rewrite Hmv. by apply escolher_vencedor_ui_pending.
  - intros w Hw. rewrite Hmv in Hw.
    by apply escolher_vencedor_ui_chosen in Hw.
Qed.
End bracket_facts.

Section rounds_facts.
Variable radio : string → list string → option string.

Lemma jogar_rodada_shown matches prev :
  (jogar_rodada radio matches prev).2 = partida radio prev <$> matches.
Proof.
  unfold jogar_rodada, Dict.items.
  change (partida radio prev <$> matches)
    with ((∅ : gmap string (option string), @nil match_view).2
          ++ (partida radio prev <$> matches)).
  generalize (∅ : gmap string (option string), @nil match_view).
  induction matches as [|[mid [m1 m2]] matches IH]; intros [winners shown];
    cbn [foldl fmap list_fmap].
  - by rewrite app_nil_r.
  - rewrite IH. cbn [snd]. by rewrite <- app_assoc.
Qed.

Lemma partida_asked prev e : asked radio (partida radio prev e).
Proof. reflexivity. Qed.

Lemma jogar_round32_steps (jogos_r32 : gmap string jogo) (mids : list string)
    acc winners32 shown :
  foldl (jogar_partida32 radio jogos_r32) acc mids = Some (winners32, shown) →
  ∃ winners0 shown0 shown',
    acc = Some (winners0, shown0)
    ∧ shown = shown0 ++ shown'
    ∧ mv_id <$> shown' = mids
    ∧ Forall (asked radio) shown'.
Proof.
  revert acc. induction mids as [|mid mids IH]; intros acc; cbn [foldl].
  - intros ->. exists winners32, shown, []. by rewrite app_nil_r.
  - intros (winners1 & shown1 & shown' & Hstep & -> & Hids & Hasked)%IH.
    unfold jogar_partida32 in Hstep.
    destruct acc as [[winners0 shown0]|]; [|done]. cbn [mbind option_bind] in Hstep.
    destruct (jogos_r32 !! mid) as [[[t1 t2] desc]|]; [|done].
    cbn [mbind option_bind] in Hstep. injection Hstep as <- <-.
    eexists winners0, shown0, (_ :: shown'). split; [done|].
    split; [by rewrite <- app_assoc|]. split.
    + cbn [fmap list_fmap mv_id]. by f_equal.
    + by constructor.
Qed.

Lemma jogar_round32_shown jogos_r32 winners32 shown :
  jogar_round32 radio jogos_r32 = Some (winners32, shown) →
  mv_id <$> shown = order32 ∧ Forall (asked radio) shown.
Proof.
  intros (winners0 & shown0 & shown' & [= <- <-] & -> & Hids & Hasked)
    %jogar_round32_steps.
  done.
Qed.

Lemma semis_M101 : Dict.get SEMIS_MATCHES "M101" = Some ("M97", "M98").
Proof. reflexivity. Qed.

Lemma semis_M102 : Dict.get SEMIS_MATCHES "M102" = Some ("M99", "M100").
Proof. reflexivity. Qed.

Lemma terceiro_lugar_asked winnersQ winnersS :
  ∃ third, terceiro_lugar radio winnersQ winnersS = Some third
           ∧ asked radio (third_as_match third).
Proof.
  unfold terceiro_lugar. rewrite semis_M101, semis_M102.
  cbn [mbind option_bind].
  destruct (all_truthy _); eexists; (split; [done|]); reflexivity.
Qed.

(** Every match of a rendered bracket shows the answer of
    [escolher_vencedor_ui] for its own two teams, and the matches of each
    round are those of its table. *)
Lemma chaveamento_matches jogos_r32 view :
  chaveamento radio jogos_r32 = Some view →
  mv_id <$> bv_round32 view = order32
  ∧ mv_id <$> bv_round16 view = Dict.keys ROUND16_MATCHES
  ∧ mv_id <$> bv_quarters view = Dict.keys QUARTERS_MATCHES
  ∧ mv_id <$> bv_semis view = Dict.keys SEMIS_MATCHES
  ∧ mv_id (third_as_match (bv_third view)) = "M103 (Third Place)"
  ∧ mv_id (bv_final view) = "M104 (Final)"
  ∧ Forall (asked radio) (all_matches view).
Proof.
  unfold chaveamento.
  destruct (jogar_round32 radio jogos_r32) as [[winners32 shown32]|] eqn:H32;
    [|done].
  cbn [mbind option_bind].
  apply jogar_round32_shown in H32 as [Hids32 Hasked32].
  pose proof (jogar_rodada_shown ROUND16_MATCHES winners32) as H16.
  destruct (jogar_rodada radio ROUND16_MATCHES winners32) as [winners16 shown16].
  pose proof (jogar_rodada_shown QUARTERS_MATCHES winners16) as HQ.
  destruct (jogar_rodada radio QUARTERS_MATCHES winners16) as [winnersQ shownQ].
  pose proof (jogar_rodada_shown SEMIS_MATCHES winnersQ) as HS.
  destruct (jogar_rodada radio SEMIS_MATCHES winnersQ) as [winnersS shownS].
  unfold snd in H16, HQ, HS. subst shown16 shownQ shownS.
  destruct (terceiro_lugar_asked winnersQ winnersS) as (third & -> & Hthird).
  cbn [mbind option_bind]. intros [= <-].
  unfold all_matches.
  cbn [bv_round32 bv_round16 bv_quarters bv_semis bv_third bv_final].
  repeat (split; [first [done | by destruct third]|]).
  rewrite Forall_app. split; [done|]. cbn [app].
  repeat (apply Forall_cons;
          split; [first [exact Hthird | apply partida_asked | reflexivity]|]).
  apply Forall_nil_2.
Qed.
End rounds_facts.

(** C4. A match with an unresolved participant ([None] or empty) gets no
    winner, and a recorded winner is one of the two resolved participants;
    this holds of [escolher_vencedor_ui] and hence of every match of every
    round of a rendered bracket. *)
Theorem winner_only_among_resolved_teams
    (radio : string → list string → option string) :
  radio_picks_option radio →
  (∀ match_id t1 t2,
     (truthy t1 = false ∨ truthy t2 = false →
      escolher_vencedor_ui radio match_id t1 t2 = None)
     ∧ ∀ w, escolher_vencedor_ui radio match_id t1 t2 = Some w →
            truthy t1 = true ∧ truthy t2 = true ∧ (t1 = Some w ∨ t2 = Some w))
  ∧ ∀ jogos_r32 view,
      chaveamento radio jogos_r32 = Some view →
      Forall winner_sound (all_matches view).
Proof.
  intros Hradio. split.
  - intros match_id t1 t2. split.
    + apply escolher_vencedor_ui_pending.
    + intros w. by apply escolher_vencedor_ui_chosen.
  - intros jogos_r32 view (_ & _ & _ & _ & _ & _ & Hasked)%chaveamento_matches.
    eapply Forall_impl; [exact Hasked|].
    intros mv. by apply asked_winner_sound.
Qed.

Lemma winner_only_among_resolved_teams_witness :
  escolher_vencedor_ui radio_first "M89" (Some "Germany") None = None
  ∧ Forall winner_sound (all_matches view_example).
Proof.
  destruct (winner_only_among_resolved_teams radio_first
              radio_first_picks_option) as [Hwidget Hview].
  split.
  - apply (Hwidget "M89" (Some "Germany") None). right. reflexivity.
  - apply (Hview jogos_example view_example). exact chaveamento_example.
Defined.

(** C6, as amended. A rendered bracket holds 32 winner entries, one per
    match: 16 in the round of 32, 8 in the round of 16, 4 quarterfinals,
    2 semifinals, the third-place match and the final. *)
Theorem winner_entries_32
    (radio : string → list string → option string)
    (jogos_r32 : gmap string jogo) (view : bracket_view) :
  chaveamento radio jogos_r32 = Some view →
  winner_entries view = 32
  ∧ length (bv_round32 view) = 16
  ∧ length (bv_round16 view) = 8
  ∧ length (bv_quarters view) = 4
  ∧ length (bv_semis view) = 2
  ∧ mv_id <$> all_matches view = winner_match_ids
  ∧ NoDup winner_match_ids.
Proof.
  intros (H32 & H16 & HQ & HS & H3 & HF & _)%chaveamento_matches.
  assert (mv_id <$> all_matches view = winner_match_ids) as Hids.
  { unfold all_matches, winner_match_ids.
    rewrite !fmap_app, H32, H16, HQ, HS. cbn [fmap list_fmap].
    by rewrite H3, HF. }
  apply (f_equal length) in H32, H16, HQ, HS. rewrite length_fmap in H32, H16, HQ, HS.
  split; [|repeat split; try done].
  - unfold winner_entries. by rewrite <- (length_fmap mv_id), Hids.
  - compute_done.
Qed.

Lemma winner_entries_32_witness :
  winner_entries view_example = 32
  ∧ length (bv_round32 view_example) = 16
  ∧ length (bv_round16 view_example) = 8
  ∧ length (bv_quarters view_example) = 4
  ∧ length (bv_semis view_example) = 2
  ∧ mv_id <$> all_matches view_example = winner_match_ids
  ∧ NoDup winner_match_ids.
Proof.
  exact (winner_entries_32 radio_first jogos_example view_example
           chaveamento_example).
Defined.

(** ** Third-place match *)

Section third_place_facts.
Variable radio : string → list string → option string.

Lemma semifinal_loser_computed (t1 t2 w : option string) :
  semifinal_loser t1 t2 w (if decide (w = t1) then t2 else t1).
Proof.
  unfold semifinal_loser, other_participant. case_decide as Hw.
  - subst w. split; [by right|]. split; [by intros ? ->|]. intros _. by left.
  - split; [by left|]. split; [by intros _ ->|].
    intros [?|?]; [done|by right].
Qed.

Lemma terceiro_lugar_state winnersQ winnersS :
  let sf1_t1 := winners_get winnersQ "M97" in
  let sf1_t2 := winners_get winnersQ "M98" in
  let sf1_winner := winners_get winnersS "M101" in
  let sf2_t1 := winners_get winnersQ "M99" in
  let sf2_t2 := winners_get winnersQ "M100" in
  let sf2_winner := winners_get winnersS "M102" in
  if all_truthy [sf1_t1; sf1_t2; sf1_winner; sf2_t1; sf2_t2; sf2_winner]
  then ∃ sf1_loser sf2_loser,
      terceiro_lugar radio winnersQ winnersS
      = Some (ThirdMatch sf1_loser sf2_loser
                (escolher_vencedor_ui radio "M103 (Third Place)"
                   sf1_loser sf2_loser))
      ∧ semifinal_loser sf1_t1 sf1_t2 sf1_winner sf1_loser
      ∧ semifinal_loser sf2_t1 sf2_t2 sf2_winner sf2_loser
  else terceiro_lugar radio winnersQ winnersS = Some ThirdWaiting.
Proof.
  intros. unfold terceiro_lugar. rewrite semis_M101, semis_M102.
  cbn [mbind option_bind].
  fold sf1_t1 sf1_t2 sf1_winner sf2_t1 sf2_t2 sf2_winner.
  destruct (all_truthy _); [|done].
  eexists _, _. split; [done|].
  split; apply semifinal_loser_computed.
Qed.

Lemma jogar_rodada_semis winnersQ :
  jogar_rodada radio SEMIS_MATCHES winnersQ
  = (<["M102" := mv_winner (partida radio winnersQ ("M102", ("M99", "M100")))]>
       (<["M101" := mv_winner (partida radio winnersQ ("M101", ("M97", "M98")))]>
          ∅),
     [partida radio winnersQ ("M101", ("M97", "M98"));
      partida radio winnersQ ("M102", ("M99", "M100"))]).
Proof. reflexivity. Qed.

Lemma recorded_winner_resolved match_id t1 t2 :
  radio_picks_option radio →
  let w := escolher_vencedor_ui radio match_id t1 t2 in
  all_truthy [t1; t2; w] = truthy w ∧ (truthy w = true → w = t1 ∨ w = t2).
Proof.
  intros Hradio w. destruct w as [n|] eqn:Hw.
  - apply (escolher_vencedor_ui_chosen radio) in Hw as (H1 & H2 & Hn);
      [|done].
    unfold all_truthy. cbn [forallb]. rewrite H1, H2, andb_true_r.
    split; [done|]. intros _. destruct Hn as [->| ->]; [by left|by right].
  - unfold all_truthy. cbn [forallb truthy].
    rewrite !andb_false_r. by split.
Qed.
End third_place_facts.

(** C2. In every state where the four quarterfinal winners feeding the
    semifinals and both semifinal winners are recorded, the third-place
    match is played by the two semifinal losers, each the semifinal
    participant that is not the recorded winner; otherwise the column waits
    and asks for no winner.  In a rendered bracket the recorded winner of a
    semifinal is one of its participants, so the loser is the other one. *)
Theorem third_place_shows_semifinal_losers
    (radio : string → list string → option string) :
  (∀ winnersQ winnersS : gmap string (option string),
     let sf1_t1 := winners_get winnersQ "M97" in
     let sf1_t2 := winners_get winnersQ "M98" in
     let sf1_winner := winners_get winnersS "M101" in
     let sf2_t1 := winners_get winnersQ "M99" in
     let sf2_t2 := winners_get winnersQ "M100" in
     let sf2_winner := winners_get winnersS "M102" in
     if all_truthy [sf1_t1; sf1_t2; sf1_winner; sf2_t1; sf2_t2; sf2_winner]
     then ∃ sf1_loser sf2_loser,
         terceiro_lugar radio winnersQ winnersS
         = Some (ThirdMatch sf1_loser sf2_loser
                   (escolher_vencedor_ui radio "M103 (Third Place)"
                      sf1_loser sf2_loser))
         ∧ semifinal_loser sf1_t1 sf1_t2 sf1_winner sf1_loser
         ∧ semifinal_loser sf2_t1 sf2_t2 sf2_winner sf2_loser
     else terceiro_lugar radio winnersQ winnersS = Some ThirdWaiting)
  ∧ (radio_picks_option radio →
     ∀ jogos_r32 view,
       chaveamento radio jogos_r32 = Some view →
       ∃ sf1 sf2,
         bv_semis view = [sf1; sf2]
         ∧ mv_id sf1 = "M101" ∧ mv_id sf2 = "M102"
         ∧ if truthy (mv_winner sf1) && truthy (mv_winner sf2)
           then ∃ sf1_loser sf2_loser,
               bv_third view
               = ThirdMatch sf1_loser sf2_loser
                   (escolher_vencedor_ui radio "M103 (Third Place)"
                      sf1_loser sf2_loser)
               ∧ other_participant (mv_team1 sf1) (mv_team2 sf1)
                                   (mv_winner sf1) sf1_loser
               ∧ other_participant (mv_team1 sf2) (mv_team2 sf2)
                                   (mv_winner sf2) sf2_loser
           else bv_third view = ThirdWaiting).
Proof.
  split; [apply terceiro_lugar_state|].
  intros Hradio jogos_r32 view. unfold chaveamento.
  destruct (jogar_round32 radio jogos_r32) as [[winners32 shown32]|]; [|done].
  cbn [mbind option_bind].
  destruct (jogar_rodada radio ROUND16_MATCHES winners32) as [winners16 shown16].
  destruct (jogar_rodada radio QUARTERS_MATCHES winners16) as [winnersQ shownQ].
  rewrite jogar_rodada_semis.
  set (sf1 := partida radio winnersQ ("M101", ("M97", "M98"))).
  set (sf2 := partida radio winnersQ ("M102", ("M99", "M100"))).
  set (winnersS := <["M102" := mv_winner sf2]> (<["M101" := mv_winner sf1]> ∅)).
  pose proof (terceiro_lugar_state radio winnersQ winnersS) as Hthird.
  cbn zeta in Hthird.
  assert (winners_get winnersS "M101" = mv_winner sf1) as H1.
  { unfold winners_get, winnersS.
    by rewrite lookup_insert_ne, lookup_insert_eq. }
  assert (winners_get winnersS "M102" = mv_winner sf2) as H2.
  { unfold winners_get, winnersS. by rewrite lookup_insert_eq. }
  rewrite H1, H2 in Hthird.
  destruct (recorded_winner_resolved radio "M101"
              (winners_get winnersQ "M97") (winners_get winnersQ "M98") Hradio)
    as [Hall1 Hpart1].
  destruct (recorded_winner_resolved radio "M102"
              (winners_get winnersQ "M99") (winners_get winnersQ "M100") Hradio)
    as [Hall2 Hpart2].
  change (escolher_vencedor_ui radio "M101" _ _) with (mv_winner sf1)
    in Hall1, Hpart1.
  change (escolher_vencedor_ui radio "M102" _ _) with (mv_winner sf2)
    in Hall2, Hpart2.
  change (all_truthy [winners_get winnersQ "M97"; winners_get winnersQ "M98";
                      mv_winner sf1; winners_get winnersQ "M99";
                      winners_get winnersQ "M100"; mv_winner sf2])
    with (all_truthy ([winners_get winnersQ "M97"; winners_get winnersQ "M98";
                       mv_winner sf1]
                      ++ [winners_get winnersQ "M99"; winners_get winnersQ "M100";
                          mv_winner sf2])) in Hthird.
  unfold all_truthy in Hthird, Hall1, Hall2.
  rewrite forallb_app, Hall1, Hall2 in Hthird.
  destruct (terceiro_lugar radio winnersQ winnersS) as [third|] eqn:Heq;
    [|by destruct (_ && _); [destruct Hthird as (? & ? & ? & _)|]].
  cbn [mbind option_bind]. intros [= <-].
  exists sf1, sf2. cbn [bv_semis bv_third].
  split; [done|]. split; [done|]. split; [done|].
  destruct (truthy (mv_winner sf1)) eqn:Hw1, (truthy (mv_winner sf2)) eqn:Hw2;
    cbn [andb] in *; try (by injection Hthird as ->).
  destruct Hthird as (l1 & l2 & [= ->] & (_ & _ & Hl1) & (_ & _ & Hl2)).
  exists l1, l2. split; [done|]. split; [apply Hl1|apply Hl2]; auto.
Qed.

Lemma third_place_shows_semifinal_losers_witness :
  ∃ sf1 sf2,
    bv_semis view_example = [sf1; sf2]
    ∧ mv_id sf1 = "M101" ∧ mv_id sf2 = "M102"
    ∧ if truthy (mv_winner sf1) && truthy (mv_winner sf2)
      then ∃ sf1_loser sf2_loser,
          bv_third view_example
          = ThirdMatch sf1_loser sf2_loser
              (escolher_vencedor_ui radio_first "M103 (Third Place)"
                 sf1_loser sf2_loser)
          ∧ other_participant (mv_team1 sf1) (mv_team2 sf1)
                              (mv_winner sf1) sf1_loser
          ∧ other_participant (mv_team1 sf2) (mv_team2 sf2)
                              (mv_winner sf2) sf2_loser
      else bv_third view_example = ThirdWaiting.
Proof.
  destruct (third_place_shows_semifinal_losers radio_first) as [_ Hview].
  exact (Hview radio_first_picks_option jogos_example view_example
           chaveamento_example).
Defined.

(** ** Assignment of the third-placed teams *)

(** Reading [ROUND32_THIRD_SLOTS[mid]] never fails for a slot of
    [match_ids]. *)
Lemma third_slot_defined (mid : string) :
  mid ∈ match_ids → is_Some (Dict.get ROUND32_THIRD_SLOTS mid).
Proof.
  intros Hin. destruct (Dict.get ROUND32_THIRD_SLOTS mid) eqn:Hget; [done|].
  by apply dict_get_None in Hget.
Qed.

Lemma match_ids_NoDup : NoDup match_ids.
Proof. compute_done. Qed.

Lemma match_ids_length : length match_ids = 8.
Proof. reflexivity. Qed.

Lemma index_of_app_notin (x : string) (l1 l2 : list string) :
  x ∉ l1 → index_of x (l1 ++ l2) = length l1 + index_of x l2.
Proof.
  induction l1 as [|y l1 IH]; [done|].
  rewrite not_elem_of_cons. intros [Hne Hout].
  rewrite <- app_comm_cons. cbn [index_of length].
  rewrite decide_False by done. by rewrite IH.
Qed.

(** A slot tried earlier has a smaller position. *)
Lemma slot_pos_before (tried todo : list string) (mid mid' : string) :
  match_ids = tried ++ mid :: todo → mid' ∈ todo →
  slot_pos mid < slot_pos mid'.
Proof.
  intros Hids Hin. unfold slot_pos.
  pose proof match_ids_NoDup as Hnd. rewrite Hids in Hnd |- *.
  apply NoDup_app in Hnd as (_ & Hsep & [Hmid _]%NoDup_cons).
  assert (mid ∉ tried) as Hmid_tried.
  { intros Hm. apply (Hsep _ Hm). by left. }
  assert (mid' ∉ tried) as Hmid'_tried.
  { intros Hm. apply (Hsep _ Hm). by right. }
  rewrite !index_of_app_notin by done. cbn [index_of].
  rewrite decide_True by done.
  rewrite decide_False by (by intros ->). lia.
Qed.

Lemma matching_nil_inv used mids : matching used [] mids → mids = [].
Proof. intros [Hall _]. by apply Forall2_nil_inv_l in Hall. Qed.

Lemma matching_cons_inv used q qs mids :
  matching used (q :: qs) mids →
  ∃ mid mids', mids = mid :: mids' ∧ eligible q mid ∧ (mid ∉ used)
               ∧ matching ({[mid]} ∪ used) qs mids'.
Proof.
  intros (Hall & Hnd & Hfree).
  apply Forall2_cons_inv_l in Hall as (mid & mids' & Hel & Hall & ->).
  apply NoDup_cons in Hnd as [Hmid Hnd].
  exists mid, mids'. split; [done|]. split; [done|].
  split; [apply Hfree; by left|].
  split; [done|]. split; [done|].
  intros m Hm. rewrite not_elem_of_union, not_elem_of_singleton.
  split; [by intros ->|]. apply Hfree. by right.
Qed.

Lemma matching_cons used q qs mid mids :
  eligible q mid → mid ∉ used → matching ({[mid]} ∪ used) qs mids →
  matching used (q :: qs) (mid :: mids).
Proof.
  intros Hel Hmid (Hall & Hnd & Hfree). split; [by constructor|]. split.
  - apply NoDup_cons. split; [|done].
    intros Hin. apply (Hfree _ Hin), elem_of_union. left.
    by apply elem_of_singleton.
  - intros m [->|Hin]%elem_of_cons; [done|].
    intros Hused. apply (Hfree _ Hin), elem_of_union. by right.
Qed.

(** The loop goes on to the next slot: the slot just left joins the slots
    known to start no matching, which leaves to show that it starts none. *)
Local Ltac next_slot IH Htried tried mid :=
  let m := fresh "m" in
  let ms := fresh "ms" in
  let Hm := fresh "Hm" in
  apply (IH (tried ++ [mid])); [by rewrite <- app_assoc| |done];
  intros m ms [Hm|Hm%list_elem_of_singleton]%elem_of_app;
  [by apply Htried|subst m].

Section search.
Variables (group team : string) (rest : list (string * string)).

(** What the recursive call is known to do. *)
Hypothesis rec_correct :
  ∀ used assignment,
    (∀ mid, mid ∉ used → assignment !! mid = None) →
    search_found rest used assignment (backtrack rest used assignment)
    ∨ search_failed rest used assignment (backtrack rest used assignment).

Lemma try_slots_correct (todo tried : list string)
    (used : gset string) (assignment : gmap string (string * string)) :
  match_ids = tried ++ todo →
  (∀ mid mids, mid ∈ tried → ¬ matching used ((group, team) :: rest) (mid :: mids)) →
  (∀ mid, mid ∉ used → assignment !! mid = None) →
  let r := try_slots group team (backtrack rest) todo used assignment in
  search_found ((group, team) :: rest) used assignment r
  ∨ search_failed ((group, team) :: rest) used assignment r.
Proof.
  revert tried. induction todo as [|mid todo IH];
    intros tried Hids Htried Hdom; cbn [try_slots].
  { right. split; [done|]. intros mids Hm.
    destruct (matching_cons_inv _ _ _ _ Hm)
      as (mid & mids' & -> & [Hin _] & _).
    rewrite Hids, app_nil_r in Hin. by apply (Htried mid mids'). }
  assert (mid ∈ match_ids) as Hmid_slot.
  { rewrite Hids. apply elem_of_app. right. by left. }
  case_decide as Hused.
  { next_slot IH Htried tried mid.
    intros (_ & _ & Hfree). apply (Hfree mid); [by left|done]. }
  case_bool_decide as Hallowed; cbn [negb].
  2:{ next_slot IH Htried tried mid.
      intros ([[_ Hgroup] _]%Forall2_cons_1 & _). by apply Hallowed. }
  destruct (rec_correct ({[mid]} ∪ used) (<[mid := (group, team)]> assignment))
    as [(mids & Hm & -> & Hleast)|[-> Hnone]].
  { intros m [Hne Hm]%not_elem_of_union.
    rewrite lookup_insert_ne; [by apply Hdom|].
    intros ->. by apply Hne, elem_of_singleton. }
  - left. exists (mid :: mids). split; [by apply matching_cons|]. split.
    + cbn [list_to_set foldr place]. do 2 f_equal.
      apply set_eq. intros m. rewrite !elem_of_union. tauto.
    + intros mids' Hm'.
      destruct (matching_cons_inv _ _ _ _ Hm')
        as (mid' & mids'' & -> & [Hin _] & _ & Hrest).
      rewrite Hids in Hin.
      apply elem_of_app in Hin as [Hin|[->|Hin]%elem_of_cons].
      * by destruct (Htried mid' mids'' Hin).
      * apply lex_eq. by apply Hleast.
      * apply lex_lt. by apply (slot_pos_before tried todo).
  - assert (({[mid]} ∪ used) ∖ {[mid]} = used) as ->.
    { apply set_eq. intros m.
      rewrite elem_of_difference, elem_of_union, elem_of_singleton.
      split; [by intros [[?|?] ?]|].
      intros Hm. split; [by right|]. by intros ->. }
    rewrite delete_insert_id by by apply Hdom.
    next_slot IH Htried tried mid.
    intros (mid' & mids' & [= <- <-] & _ & _ & Hrest)%matching_cons_inv.
    by eapply Hnone.
Qed.
End search.

Lemma backtrack_correct (qs : list (string * string))
    (used : gset string) (assignment : gmap string (string * string)) :
  (∀ mid, mid ∉ used → assignment !! mid = None) →
  search_found qs used assignment (backtrack qs used assignment)
  ∨ search_failed qs used assignment (backtrack qs used assignment).
Proof.
  revert used assignment. induction qs as [|[group team] rest IH];
    intros used assignment Hdom.
  - left. exists []. split; [|split].
    + split; [constructor|]. split; [constructor|].
      intros mid Hin. by apply elem_of_nil in Hin.
    + cbn [backtrack list_to_set foldr place]. do 2 f_equal.
      apply set_eq. intros m. rewrite elem_of_union, elem_of_empty. tauto.
    + intros mids' ->%matching_nil_inv. constructor.
  - cbn [backtrack].
    apply (try_slots_correct group team rest IH match_ids []); [done| |done].
    intros mid mids Hin. by apply elem_of_nil in Hin.
Qed.

Lemma place_lookup_notin qs mids (assignment : gmap string (string * string)) mid :
  mid ∉ mids → place qs mids assignment !! mid = assignment !! mid.
Proof.
  revert mids assignment.
  induction qs as [|q qs IH]; intros [|mid0 mids] assignment; try done.
  rewrite not_elem_of_cons. intros [Hne Hout]. cbn [place].
  rewrite IH by done. by rewrite lookup_insert_ne.
Qed.

Lemma place_lookup qs mids (assignment : gmap string (string * string)) i q mid :
  NoDup mids → qs !! i = Some q → mids !! i = Some mid →
  place qs mids assignment !! mid = Some q.
Proof.
  revert mids assignment i.
  induction qs as [|q0 qs IH]; intros [|mid0 mids] assignment i; try done.
  intros [Hout Hnd]%NoDup_cons. destruct i as [|i]; cbn [place].
  - intros [= ->] [= ->].
    rewrite place_lookup_notin by done. apply lookup_insert_eq.
  - intros Hq Hmid. by apply (IH mids _ i).
Qed.

Lemma place_lookup_inv qs mids (assignment : gmap string (string * string)) mid q :
  place qs mids assignment !! mid = Some q →
  assignment !! mid = Some q
  ∨ ∃ i, qs !! i = Some q ∧ mids !! i = Some mid.
Proof.
  revert mids assignment.
  induction qs as [|q0 qs IH]; intros [|mid0 mids] assignment; try (by left).
  cbn [place]. intros [Hhere|(i & Hq & Hmid)]%IH.
  - destruct (decide (mid0 = mid)) as [->|Hne].
    + rewrite lookup_insert_eq in Hhere. injection Hhere as ->.
      right. by exists 0.
    + rewrite lookup_insert_ne in Hhere by done. by left.
  - right. by exists (S i).
Qed.

Lemma place_dom qs mids (assignment : gmap string (string * string)) :
  length qs = length mids →
  dom (place qs mids assignment) = list_to_set mids ∪ dom assignment.
Proof.
  revert mids assignment.
  induction qs as [|q qs IH]; intros [|mid mids] assignment; try done.
  - intros _. cbn [place list_to_set foldr].
    apply set_eq. intros m. rewrite elem_of_union, elem_of_empty. tauto.
  - intros [= Hlen]. cbn [place list_to_set foldr].
    rewrite IH, dom_insert_L by done.
    apply set_eq. intros m. rewrite !elem_of_union. tauto.
Qed.

(** A matching of 8 pairs uses each of the 8 slots exactly once. *)
Lemma matching_uses_every_slot used qs mids :
  length qs = 8 → matching used qs mids → mids ≡ₚ match_ids.
Proof.
  intros Hlen (Hall & Hnd & _).
  apply submseteq_length_Permutation.
  - apply NoDup_submseteq; [done|]. intros mid Hin.
    apply list_elem_of_lookup in Hin as [i Hi].
    destruct (Forall2_lookup_r _ _ _ _ _ Hall Hi) as (q & _ & [Hslot _]).
    done.
  - apply Forall2_length in Hall. rewrite match_ids_length. lia.
Qed.

Lemma slots_lex_le_antisym mids1 mids2 :
  slots_lex_le mids1 mids2 → slots_lex_le mids2 mids1 → mids1 = mids2.
Proof.
  induction 1 as [|mid mid' mids mids' Hlt|mid mids mids' Hle IH];
    inversion 1; subst; try done; try lia.
  f_equal. by apply IH.
Qed.

(** The search from the empty state, as [distribuir_terceiros_nos_jogos]
    starts it. *)
Lemma backtrack_from_scratch (qualified : list (string * string)) :
  search_found qualified ∅ ∅ (backtrack qualified ∅ ∅)
  ∨ search_failed qualified ∅ ∅ (backtrack qualified ∅ ∅).
Proof. apply backtrack_correct. intros mid _. apply lookup_empty. Qed.

Lemma qualified_example_matching : matching ∅ qualified_example mids_example.
Proof.
  split; [|split].
  - unfold qualified_example, mids_example.
    repeat (apply Forall2_cons; split; [split; compute_done|]).
    apply Forall2_nil_2.
  - compute_done.
  - intros mid _. apply not_elem_of_empty.
Qed.

Lemma group_K_only_M80 team mid : eligible ("K", team) mid → mid = "M80".
Proof.
  intros [Hin HK]. unfold match_ids, Dict.keys in Hin.
  cbn [ROUND32_THIRD_SLOTS fmap list_fmap fst] in Hin.
  rewrite !elem_of_cons, elem_of_nil in Hin.
  destruct Hin as [->|[->|[->|[->|[->|[->|[->|[->|[]]]]]]]]];
    first [reflexivity
          | exfalso; revert HK; by apply (bool_decide_eq_false_1 _)].
Qed.

Lemma unassignable_example_no_matching :
  ¬ ∃ mids, matching ∅ unassignable_example mids.
Proof.
  intros (mids & Hall & Hnd & _). unfold unassignable_example in Hall.
  apply Forall2_cons_inv_l in Hall as (mid1 & mids1 & Hel1 & Hall & ->).
  apply Forall2_cons_inv_l in Hall as (mid2 & mids2 & Hel2 & _ & ->).
  apply group_K_only_M80 in Hel1 as ->. apply group_K_only_M80 in Hel2 as ->.
  apply NoDup_cons in Hnd as [Hout _]. apply Hout. by left.
Qed.

(** C1. With a number of pairs other than 8 the engine returns the error
    about the count.  With 8 pairs, if some matching exists (an assignment
    of the pairs to distinct slots that accept them) the engine returns a
    dictionary that is such a matching: every slot holds exactly one pair,
    the pair of the position the matching sends to it; and if no matching
    exists it returns no dictionary and the "Unable to assign" error. *)
Theorem distribuir_terceiros_nos_jogos_spec (qualified : list (string * string)) :
  (length qualified ≠ 8 →
   distribuir_terceiros_nos_jogos qualified = (None, Some err_not_8))
  ∧ (length qualified = 8 →
     ((∃ mids, matching ∅ qualified mids) →
      ∃ mids assignment,
        distribuir_terceiros_nos_jogos qualified = (Some assignment, None)
        ∧ matching ∅ qualified mids
        ∧ mids ≡ₚ match_ids
        ∧ dom assignment = list_to_set match_ids
        ∧ ∀ mid q,
            assignment !! mid = Some q
            ↔ ∃ i, qualified !! i = Some q ∧ mids !! i = Some mid)
     ∧ ((¬ ∃ mids, matching ∅ qualified mids) →
        distribuir_terceiros_nos_jogos qualified = (None, Some err_unable))).
Proof.
  unfold distribuir_terceiros_nos_jogos. split.
  { intros Hlen. by rewrite bool_decide_eq_true_2. }
  intros Hlen. rewrite bool_decide_eq_false_2 by (by intros ?).
  destruct (backtrack_from_scratch qualified)
    as [(mids & Hm & -> & _)|[-> Hnone]].
  - split; [|intros Hno; destruct Hno; by exists mids].
    intros _. exists mids, (place qualified mids ∅).
    pose proof (matching_uses_every_slot _ _ _ Hlen Hm) as Hperm.
    destruct Hm as (Hall & Hnd & Hfree).
    split; [done|]. split; [done|]. split; [done|]. split.
    + rewrite place_dom by by apply Forall2_length in Hall.
      rewrite dom_empty_L. apply set_eq. intros m.
      rewrite elem_of_union, elem_of_empty, !elem_of_list_to_set, Hperm. tauto.
    + intros mid q. split.
      * intros [Hempty|?]%place_lookup_inv; [|done].
        by rewrite lookup_empty in Hempty.
      * intros (i & Hq & Hmid). by apply (place_lookup _ _ _ i).
  - split; [|done]. intros [mids Hm]. by destruct (Hnone mids).
Qed.

Lemma distribuir_terceiros_nos_jogos_spec_witness :
  distribuir_terceiros_nos_jogos [("A", "South Korea")] = (None, Some err_not_8)
  ∧ (∃ mids assignment,
        distribuir_terceiros_nos_jogos qualified_example = (Some assignment, None)
        ∧ matching ∅ qualified_example mids
        ∧ mids ≡ₚ match_ids
        ∧ dom assignment = list_to_set match_ids
        ∧ ∀ mid q,
            assignment !! mid = Some q
            ↔ ∃ i, qualified_example !! i = Some q ∧ mids !! i = Some mid)
  ∧ distribuir_terceiros_nos_jogos unassignable_example
    = (None, Some err_unable).
Proof.
  split; [|split].
  - destruct (distribuir_terceiros_nos_jogos_spec [("A", "South Korea")])
      as [Hcount _].
    apply Hcount. cbn. lia.
  - destruct (distribuir_terceiros_nos_jogos_spec qualified_example)
      as [_ Hsearch].
    destruct (Hsearch eq_refl) as [Hfound _].
    apply Hfound. exists mids_example. exact qualified_example_matching.
  - destruct (distribuir_terceiros_nos_jogos_spec unassignable_example)
      as [_ Hsearch].
    destruct (Hsearch eq_refl) as [_ Hnone].
    apply Hnone. exact unassignable_example_no_matching.
Defined.

(** ** The page depends on the widgets only through their values *)

Lemma foldl_pointwise {A B} (f g : A → B → A) (a : A) (l : list B) :
  (∀ a x, f a x = g a x) → foldl f a l = foldl g a l.
Proof.
  intros Hfg. revert a. induction l as [|x l IH]; intros a; [done|].
  cbn [foldl]. by rewrite Hfg, IH.
Qed.

Section same_snapshot.
Variables (selectbox1 selectbox2 : string → list string → string).
Variables (checkbox1 checkbox2 : string → bool).
Variables (radio1 radio2 : string → list string → option string).
Hypothesis same_selectbox : ∀ key options,
    selectbox1 key options = selectbox2 key options.
Hypothesis same_checkbox : ∀ key, checkbox1 key = checkbox2 key.
Hypothesis same_radio : ∀ key options, radio1 key options = radio2 key options.

Lemma escolher_posicoes_same g teams :
  escolher_posicoes selectbox1 g teams = escolher_posicoes selectbox2 g teams.
Proof.
  unfold escolher_posicoes. apply foldl_pointwise.
  intros pos_choices i. by rewrite same_selectbox.
Qed.

Lemma montar_classificacao_grupos_same groups :
  montar_classificacao_grupos selectbox1 groups
  = montar_classificacao_grupos selectbox2 groups.
Proof.
  unfold montar_classificacao_grupos. apply foldl_pointwise.
  unfold classificar_grupo.
  intros [[standings errors]|] g; [|done]. cbn [mbind option_bind].
  destruct (Dict.get groups g) as [teams|]; [|done]. cbn [mbind option_bind].
  by rewrite escolher_posicoes_same.
Qed.

Lemma escolher_top8_terceiros_ui_same terceiros :
  escolher_top8_terceiros_ui checkbox1 terceiros
  = escolher_top8_terceiros_ui checkbox2 terceiros.
Proof.
  unfold escolher_top8_terceiros_ui. case_bool_decide; [done|].
  rewrite (foldl_pointwise _
             (λ (selected : list (string * string)) '(g, team),
                if checkbox2 ("third_" +:+ g) then selected ++ [(g, team)]
                else selected)); [done|].
  intros selected [g team]. by rewrite same_checkbox.
Qed.

Lemma escolher_vencedor_ui_same match_id t1 t2 :
  escolher_vencedor_ui radio1 match_id t1 t2
  = escolher_vencedor_ui radio2 match_id t1 t2.
Proof.
  unfold escolher_vencedor_ui. destruct (_ || _); [done|].
  destruct t1, t2; first [apply same_radio | done].
Qed.

Lemma jogar_round32_same jogos_r32 :
  jogar_round32 radio1 jogos_r32 = jogar_round32 radio2 jogos_r32.
Proof.
  unfold jogar_round32. apply foldl_pointwise. unfold jogar_partida32.
  intros [[winners32 shown]|] mid; [|done]. cbn [mbind option_bind].
  destruct (jogos_r32 !! mid) as [[[t1 t2] desc]|]; [|done].
  cbn [mbind option_bind]. by rewrite escolher_vencedor_ui_same.
Qed.

Lemma jogar_rodada_same matches prev :
  jogar_rodada radio1 matches prev = jogar_rodada radio2 matches prev.
Proof.
  unfold jogar_rodada. apply foldl_pointwise.
  intros [winners shown] [mid [m1 m2]]. by rewrite escolher_vencedor_ui_same.
Qed.

Lemma terceiro_lugar_same winnersQ winnersS :
  terceiro_lugar radio1 winnersQ winnersS
  = terceiro_lugar radio2 winnersQ winnersS.
Proof.
  unfold terceiro_lugar. rewrite semis_M101, semis_M102.
  cbn [mbind option_bind]. by rewrite escolher_vencedor_ui_same.
Qed.

Lemma jogo_final_same winnersS :
  jogo_final radio1 winnersS = jogo_final radio2 winnersS.
Proof. unfold jogo_final. by rewrite escolher_vencedor_ui_same. Qed.

Lemma chaveamento_same jogos_r32 :
  chaveamento radio1 jogos_r32 = chaveamento radio2 jogos_r32.
Proof.
  unfold chaveamento. rewrite jogar_round32_same.
  destruct (jogar_round32 radio2 jogos_r32) as [[winners32 shown32]|]; [|done].
  cbn [mbind option_bind]. rewrite !jogar_rodada_same.
  destruct (jogar_rodada radio2 ROUND16_MATCHES winners32) as [winners16 shown16].
  rewrite !jogar_rodada_same.
  destruct (jogar_rodada radio2 QUARTERS_MATCHES winners16) as [winnersQ shownQ].
  rewrite !jogar_rodada_same.
  destruct (jogar_rodada radio2 SEMIS_MATCHES winnersQ) as [winnersS shownS].
  by rewrite terceiro_lugar_same, jogo_final_same.
Qed.

Lemma app_same :
  app selectbox1 checkbox1 radio1 = app selectbox2 checkbox2 radio2.
Proof.
  unfold app. rewrite montar_classificacao_grupos_same.
  destruct (montar_classificacao_grupos selectbox2 INITIAL_GROUPS)
    as [[standings errors_groups]|]; [|done].
  cbn [mbind option_bind]. destruct (negb _); [done|].
  rewrite escolher_top8_terceiros_ui_same.
  destruct (escolher_top8_terceiros_ui checkbox2 _)
    as [qualified_thirds errors_thirds].
  destruct (negb _); [done|].
  destruct (montar_round32 standings qualified_thirds) as [[jogos_r32 err]|];
    [|done].
  cbn [mbind option_bind]. destruct (truthy err); [done|].
  by rewrite chaveamento_same.
Qed.
End same_snapshot.

(** C5. Recomputation is deterministic.  Among the matchings of 8 qualified
    pairs the engine returns the one that comes first when positions are
    compared in the iteration order of the slots, which is unique; and the
    rendered page is determined by the values of the widgets. *)
Theorem recomputation_deterministic :
  (∀ qualified : list (string * string),
     length qualified = 8 →
     (∃ mids, matching ∅ qualified mids) →
     ∃ mids,
       distribuir_terceiros_nos_jogos qualified
       = (Some (place qualified mids ∅), None)
       ∧ matching ∅ qualified mids
       ∧ (∀ mids', matching ∅ qualified mids' → slots_lex_le mids mids')
       ∧ ∀ mids0,
           matching ∅ qualified mids0 →
           (∀ mids', matching ∅ qualified mids' → slots_lex_le mids0 mids') →
           mids0 = mids)
  ∧ (∀ (selectbox1 selectbox2 : string → list string → string)
       (checkbox1 checkbox2 : string → bool)
       (radio1 radio2 : string → list string → option string),
       (∀ key options, selectbox1 key options = selectbox2 key options) →
       (∀ key, checkbox1 key = checkbox2 key) →
       (∀ key options, radio1 key options = radio2 key options) →
       app selectbox1 checkbox1 radio1 = app selectbox2 checkbox2 radio2).
Proof.
  split; [|apply app_same].
  intros qualified Hlen [mids' Hm'].
  unfold distribuir_terceiros_nos_jogos.
  rewrite bool_decide_eq_false_2 by (by intros ?).
  destruct (backtrack_from_scratch qualified)
    as [(mids & Hm & -> & Hleast)|[_ Hnone]]; [|by destruct (Hnone mids')].
  exists mids. split; [done|]. split; [done|]. split; [done|].
  intros mids0 Hm0 Hleast0.
  apply slots_lex_le_antisym; [by apply Hleast0|by apply Hleast].
Qed.

Lemma recomputation_deterministic_witness :
  (∃ mids,
      distribuir_terceiros_nos_jogos qualified_example
      = (Some (place qualified_example mids ∅), None)
      ∧ matching ∅ qualified_example mids
      ∧ (∀ mids', matching ∅ qualified_example mids' → slots_lex_le mids mids')
      ∧ ∀ mids0,
          matching ∅ qualified_example mids0 →
          (∀ mids', matching ∅ qualified_example mids' →
                    slots_lex_le mids0 mids') →
          mids0 = mids)
  ∧ app selectbox_first checkbox_A_to_H radio_first
    = app (λ key options, default "-" (head (tail options)))
          checkbox_A_to_H (λ key options, options !! 0).
Proof.
  destruct recomputation_deterministic as [Hengine Hpage]. split.
  - apply (Hengine qualified_example eq_refl).
    exists mids_example. exact qualified_example_matching.
  - apply Hpage.
    + intros key [|x [|y options]]; reflexivity.
    + reflexivity.
    + intros key [|x options]; reflexivity.
Defined.

(** ** No exception escapes the script *)

Lemma distribuir_terceiros_nos_jogos_outcome (qualified : list (string * string)) :
  (∃ assignment,
      distribuir_terceiros_nos_jogos qualified = (Some assignment, None)
      ∧ ∀ mid, mid ∈ match_ids → is_Some (assignment !! mid))
  ∨ (∃ err,
        distribuir_terceiros_nos_jogos qualified = (None, Some err)
        ∧ truthy (Some err) = true).
Proof.
  unfold distribuir_terceiros_nos_jogos.
  case_bool_decide as Hlen; [right; by eexists|].
  assert (length qualified = 8) as Hlen8 by lia.
  destruct (backtrack_from_scratch qualified)
    as [(mids & Hm & -> & _)|[-> _]]; [left|right; by eexists].
  eexists. split; [done|]. intros mid Hin.
  pose proof (matching_uses_every_slot _ _ _ Hlen8 Hm) as Hperm.
  apply elem_of_dom. rewrite place_dom by (destruct Hm as [Hall _];
                                           by apply Forall2_length in Hall).
  apply elem_of_union. left. apply elem_of_list_to_set. by rewrite Hperm.
Qed.

Lemma fixed_games_keys standings (entries : list (string * (string * string)))
    (jogos : gmap string jogo) mid :
  mid ∈ entries.*1 ∨ is_Some (jogos !! mid) →
  is_Some (foldl (fixed_game standings) jogos entries !! mid).
Proof.
  revert jogos. induction entries as [|[mid0 [code1 code2]] entries IH];
    intros jogos; cbn [foldl fmap list_fmap fst].
  - intros [Hin|?]; [by apply elem_of_nil in Hin|done].
  - intros Hmid. apply IH. cbn [fixed_game].
    destruct (decide (mid = mid0)) as [->|Hne].
    + right. by rewrite lookup_insert_eq.
    + rewrite lookup_insert_ne by done.
      destruct Hmid as [[?|?]%elem_of_cons|?]; [done|by left|by right].
Qed.

Lemma third_games_keys standings (jogos_terceiros : gmap string (string * string))
    (entries : list (string * (string * list string)))
    (jogos0 : gmap string jogo) :
  (∀ mid, mid ∈ entries.*1 → is_Some (jogos_terceiros !! mid)) →
  ∃ jogos,
    foldl (third_game standings jogos_terceiros) (Some jogos0) entries
    = Some jogos
    ∧ ∀ mid, mid ∈ entries.*1 ∨ is_Some (jogos0 !! mid) →
             is_Some (jogos !! mid).
Proof.
  revert jogos0. induction entries as [|[mid0 [code1 allowed]] entries IH];
    intros jogos0 Hall; cbn [foldl fmap list_fmap fst].
  - exists jogos0. split; [done|].
    intros mid [Hin|?]; [by apply elem_of_nil in Hin|done].
  - cbn [third_game mbind option_bind].
    destruct (Hall mid0) as [[group_3 team_3] ->]; [by left|].
    cbn [mbind option_bind].
    edestruct IH as (jogos & -> & Hkeys).
    { intros mid Hin. apply Hall. by right. }
    exists jogos. split; [done|]. intros mid Hmid. apply Hkeys.
    destruct (decide (mid = mid0)) as [->|Hne].
    + right. by rewrite lookup_insert_eq.
    + rewrite lookup_insert_ne by done.
      destruct Hmid as [[?|?]%elem_of_cons|?]; [done|by left|by right].
Qed.

Lemma montar_round32_total standings qualified_thirds :
  ∃ jogos err,
    montar_round32 standings qualified_thirds = Some (jogos, err)
    ∧ (truthy err = false → ∀ mid, mid ∈ order32 → is_Some (jogos !! mid)).
Proof.
  unfold montar_round32.
  destruct (distribuir_terceiros_nos_jogos_outcome qualified_thirds)
    as [(assignment & -> & Hall)|(e & -> & Herr)].
  2:{ rewrite Herr. eexists _, _. split; [done|]. intros Hno. congruence. }
  cbn [truthy mbind option_bind].
  destruct (third_games_keys standings assignment
              (Dict.items ROUND32_THIRD_SLOTS)
              (foldl (fixed_game standings) ∅ (Dict.items ROUND32_FIXED)) Hall)
    as (jogos & -> & Hkeys).
  cbn [mbind option_bind]. exists jogos, None. split; [done|].
  intros _ mid Hin. apply Hkeys.
  assert (mid ∈ round32_ids) as Hid.
  { destruct bracket_tables_ids as [_ Hperm]. by rewrite Hperm. }
  apply elem_of_app in Hid as [Hfixed|Hthird]; [right|by left].
  apply fixed_games_keys. by left.
Qed.

Section no_exception.
Variable selectbox : string → list string → string.
Variable checkbox : string → bool.
Variable radio : string → list string → option string.

Lemma jogar_partidas32_total (jogos_r32 : gmap string jogo) (mids : list string)
    (acc : gmap string (option string) * list match_view) :
  (∀ mid, mid ∈ mids → is_Some (jogos_r32 !! mid)) →
  is_Some (foldl (jogar_partida32 radio jogos_r32) (Some acc) mids).
Proof.
  revert acc. induction mids as [|mid mids IH]; intros acc Hall; cbn [foldl];
    [done|].
  destruct acc as [winners32 shown]. cbn [jogar_partida32 mbind option_bind].
  destruct (Hall mid) as [[[t1 t2] desc] ->]; [by left|].
  cbn [mbind option_bind]. apply IH. intros mid' Hin. apply Hall. by right.
Qed.

Lemma jogar_round32_total (jogos_r32 : gmap string jogo) :
  (∀ mid, mid ∈ order32 → is_Some (jogos_r32 !! mid)) →
  is_Some (jogar_round32 radio jogos_r32).
Proof. apply jogar_partidas32_total. Qed.

Lemma chaveamento_total (jogos_r32 : gmap string jogo) :
  (∀ mid, mid ∈ order32 → is_Some (jogos_r32 !! mid)) →
  is_Some (chaveamento radio jogos_r32).
Proof.
  intros [[winners32 shown32] H32]%jogar_round32_total.
  unfold chaveamento. rewrite H32. cbn [mbind option_bind].
  destruct (jogar_rodada radio ROUND16_MATCHES winners32) as [winners16 shown16].
  destruct (jogar_rodada radio QUARTERS_MATCHES winners16) as [winnersQ shownQ].
  destruct (jogar_rodada radio SEMIS_MATCHES winnersQ) as [winnersS shownS].
  destruct (terceiro_lugar_asked radio winnersQ winnersS) as (third & -> & _).
  done.
Qed.

(** Whatever the operator does, the script runs to a page. *)
Lemma app_total : is_Some (app selectbox checkbox radio).
Proof.
  unfold app.
  destruct (montar_classificacao_grupos_prefix selectbox INITIAL_GROUPS
              GROUP_NAMES GROUP_NAMES_NoDup INITIAL_GROUPS_total)
    as (standings & errors_groups & Hfold & _).
  unfold montar_classificacao_grupos. rewrite Hfold. cbn [mbind option_bind].
  destruct (negb _); [done|].
  destruct (escolher_top8_terceiros_ui checkbox _)
    as [qualified_thirds errors_thirds].
  destruct (negb _); [done|].
  destruct (montar_round32_total standings qualified_thirds)
    as (jogos_r32 & err & -> & Hkeys).
  cbn [mbind option_bind]. destruct (truthy err); [done|].
  destruct (chaveamento_total jogos_r32 (Hkeys eq_refl)) as [view ->]. done.
Qed.
End no_exception.

(** ** The table of slots serves every choice of 8 groups *)

Lemma subsets_complete (gs l : list string) :
  sublist gs l → gs ∈ subsets (length gs) l.
Proof.
  induction 1 as [|x gs l _ IH|x gs l _ IH]; cbn [length subsets].
  - by left.
  - apply elem_of_app. left. apply list_elem_of_fmap. by exists gs.
  - destruct gs as [|g gs]; cbn [length subsets] in *; [by left|].
    apply elem_of_app. by right.
Qed.

Lemma every_8_groups_assignable :
  forallb assignable (subsets 8 GROUP_NAMES) = true.
Proof. vm_compute. reflexivity. Qed.

Lemma matching_groups_only used (qs1 qs2 : list (string * string)) mids :
  qs1.*1 = qs2.*1 → matching used qs1 mids → matching used qs2 mids.
Proof.
  intros Hgroups (Hall & Hrest). split; [|done].
  assert (∀ qs : list (string * string),
            Forall2 eligible qs mids
            ↔ Forall2 (λ g mid, mid ∈ match_ids ∧ g ∈ allowed_groups mid)
                      qs.*1 mids) as Hfmap.
  { intros qs. by rewrite Forall2_fmap_l. }
  apply Hfmap. rewrite <- Hgroups. by apply Hfmap.
Qed.

(** For any 8 of the 12 groups, taken in the order of [GROUP_NAMES], the
    third-placed teams can be placed. *)
Lemma table_admits_matching (qualified : list (string * string)) :
  sublist qualified.*1 GROUP_NAMES → length qualified = 8 →
  ∃ mids, matching ∅ qualified mids.
Proof.
  intros Hsub Hlen.
  apply subsets_complete in Hsub. rewrite length_fmap, Hlen in Hsub.
  pose proof every_8_groups_assignable as Hall.
  rewrite forallb_forall in Hall.
  apply list_elem_of_In, Hall in Hsub. unfold assignable in Hsub.
  destruct (backtrack_from_scratch ((λ g, (g, "")) <$> qualified.*1))
    as [(mids & Hm & _)|[Hfail _]]; [|by rewrite Hfail in Hsub].
  exists mids. eapply matching_groups_only; [|exact Hm].
  rewrite <- list_fmap_compose. apply (list_fmap_id qualified.*1).
Qed.

Lemma coletar_terceiros_groups (standings : Dict.t (list string)) :
  sublist (coletar_terceiros standings).*1 (Dict.keys standings).
Proof.
  unfold coletar_terceiros, Dict.items, Dict.keys.
  assert (∀ (thirds : list (string * string)),
            ∃ more,
              foldl (λ (thirds : list (string * string)) '(g, pos),
                       if bool_decide (length pos = 4)
                       then thirds ++ [(g, default "" (pos !! 2))]
                       else thirds) thirds standings
              = thirds ++ more
              ∧ sublist more.*1 standings.*1) as Hfold.
  { induction standings as [|[g pos] standings IH]; intros thirds;
      cbn [foldl fmap list_fmap fst].
    - exists []. by rewrite app_nil_r.
    - case_bool_decide.
      + destruct (IH (thirds ++ [(g, default "" (pos !! 2))]))
          as (more & -> & Hsub).
        exists ((g, default "" (pos !! 2)) :: more).
        split; [by rewrite <- app_assoc|]. by apply sublist_skip.
      + destruct (IH thirds) as (more & -> & Hsub).
        exists more. split; [done|]. by apply sublist_cons. }
  destruct (Hfold []) as (more & -> & Hsub). done.
Qed.

Section top8_facts.
Variable checkbox : string → bool.

Lemma escolher_top8_terceiros_ui_selected terceiros selected :
  escolher_top8_terceiros_ui checkbox terceiros = (selected, []) →
  sublist selected terceiros ∧ length selected = 8.
Proof.
  unfold escolher_top8_terceiros_ui. case_bool_decide; [done|].
  assert (∀ (selected0 : list (string * string)),
            ∃ more,
              foldl (λ (selected : list (string * string)) '(g, team),
                       if checkbox ("third_" +:+ g)
                       then selected ++ [(g, team)]
                       else selected) selected0 terceiros
              = selected0 ++ more
              ∧ sublist more terceiros) as Hfold.
  { clear. induction terceiros as [|[g team] terceiros IH]; intros selected0;
      cbn [foldl].
    - exists []. by rewrite app_nil_r.
    - destruct (checkbox _).
      + destruct (IH (selected0 ++ [(g, team)])) as (more & -> & Hsub).
        exists ((g, team) :: more).
        split; [by rewrite <- app_assoc|]. by apply sublist_skip.
      + destruct (IH selected0) as (more & -> & Hsub).
        exists more. split; [done|]. by apply sublist_cons. }
  destruct (Hfold []) as (more & -> & Hsub). cbn [app].
  case_bool_decide as Hlen; [done|]. intros [= <-]. split; done.
Qed.
End top8_facts.

(** The script never reports that the third-placed teams cannot be
    assigned: the error is handled, and cannot happen. *)
Lemma app_assigns_thirds
    (selectbox : string → list string → string) (checkbox : string → bool)
    (radio : string → list string → option string) (err : option string) :
  app selectbox checkbox radio ≠ Some (Round32Error err).
Proof.
  unfold app.
  destruct (montar_classificacao_grupos_prefix selectbox INITIAL_GROUPS
              GROUP_NAMES GROUP_NAMES_NoDup INITIAL_GROUPS_total)
    as (standings & errors_groups & Hfold & Hkeys & _).
  unfold montar_classificacao_grupos. rewrite Hfold. cbn [mbind option_bind].
  destruct (negb _); [done|].
  destruct (escolher_top8_terceiros_ui checkbox _)
    as [qualified_thirds errors_thirds] eqn:Htop8.
  case_bool_decide as Herrs; cbn [negb]; [subst errors_thirds|done].
  apply escolher_top8_terceiros_ui_selected in Htop8 as [Hsub Hlen].
  assert (∃ mids, matching ∅ qualified_thirds mids) as Hm.
  { apply table_admits_matching; [|done]. rewrite <- Hkeys.
    etrans; [by apply fmap_sublist|]. apply coletar_terceiros_groups. }
  destruct (distribuir_terceiros_nos_jogos_outcome qualified_thirds)
    as [(assignment & Hok & Hall)|(e & Hfail & _)].
  2:{ destruct Hm as [mids Hm]. revert Hfail.
      unfold distribuir_terceiros_nos_jogos.
      rewrite bool_decide_eq_false_2 by (by intros ?).
      destruct (backtrack_from_scratch qualified_thirds)
        as [(mids0 & _ & -> & _)|[_ Hnone]]; [done|by destruct (Hnone mids)]. }
  unfold montar_round32. rewrite Hok. cbn [truthy mbind option_bind].
  destruct (foldl (third_game _ _) _ _); cbn [mbind option_bind truthy]; [|done].
  by destruct (chaveamento radio _).
Qed.

(** * Further properties of the script *)

(** ** Third-placed teams *)

Lemma coletar_terceiros_fold (standings : Dict.t (list string))
    (thirds : list (string * string)) :
  foldl (λ (thirds : list (string * string)) '(g, pos),
           if bool_decide (length pos = 4)
           then thirds ++ [(g, default "" (pos !! 2))]
           else thirds) thirds standings
  = thirds
    ++ omap (λ e : string * list string,
               if bool_decide (length e.2 = 4)
               then Some (e.1, default "" (e.2 !! 2)) else None)
            standings.
Proof.
  revert thirds. induction standings as [|[g pos] standings IH];
    intros thirds; cbn [foldl omap list_omap].
  - by rewrite app_nil_r.
  - rewrite IH. cbn [fst snd]. case_bool_decide; [|done].
    by rewrite <- app_assoc.
Qed.

Lemma coletar_terceiros_omap (standings : Dict.t (list string)) :
  coletar_terceiros standings
  = omap (λ e : string * list string,
            if bool_decide (length e.2 = 4)
            then Some (e.1, default "" (e.2 !! 2)) else None)
         standings.
Proof. apply (coletar_terceiros_fold standings []). Qed.

(** X1. [coletar_terceiros] lists, in the order of the standings, the groups
    whose standing has 4 entries, each with the entry at index 2; groups
    with any other standing (the empty list of a rejected group) are left
    out, so the result has one pair per complete group. *)
Theorem coletar_terceiros_spec (standings : Dict.t (list string)) :
  (∀ g team,
     (g, team) ∈ coletar_terceiros standings
     ↔ ∃ pos, (g, pos) ∈ standings ∧ length pos = 4 ∧ pos !! 2 = Some team)
  ∧ sublist (coletar_terceiros standings).*1 (Dict.keys standings)
  ∧ length (coletar_terceiros standings)
    = length (filter (λ e : string * list string, length e.2 = 4) standings).
Proof.
  split; [|split].
  - intros g team. rewrite coletar_terceiros_omap, list_elem_of_omap. split.
    + intros ([g' pos] & Hin & Hthird). cbn [fst snd] in Hthird.
      case_bool_decide as Hlen; [|done]. injection Hthird as -> Hteam.
      exists pos. split; [done|]. split; [done|].
      destruct (pos !! 2) as [t|] eqn:Hpos; [by subst|].
      apply lookup_ge_None in Hpos. lia.
    + intros (pos & Hin & Hlen & Hpos). exists (g, pos). split; [done|].
      cbn [fst snd]. by rewrite bool_decide_eq_true_2, Hpos.
  - apply coletar_terceiros_groups.
  - rewrite coletar_terceiros_omap.
    induction standings as [|[g pos] standings IH]; [done|].
    cbn [omap list_omap fst snd]. rewrite filter_cons. cbn [snd].
    case_bool_decide; rewrite ?decide_True, ?decide_False by done;
      cbn [length]; by rewrite IH.
Qed.

Section top8_spec.
Variable checkbox : string → bool.

Lemma escolher_top8_fold (terceiros selected0 : list (string * string)) :
  foldl (λ (selected : list (string * string)) '(g, team),
           if checkbox ("third_" +:+ g) then selected ++ [(g, team)]
           else selected) selected0 terceiros
  = selected0
    ++ filter (λ e : string * string, checkbox ("third_" +:+ e.1)) terceiros.
Proof.
  revert selected0. induction terceiros as [|[g team] terceiros IH];
    intros selected0; cbn [foldl].
  - by rewrite app_nil_r.
  - rewrite IH, filter_cons. cbn [fst].
    destruct (checkbox ("third_" +:+ g)).
    + rewrite decide_True by done. by rewrite <- app_assoc.
    + by rewrite decide_False by (by intros ?).
Qed.

(** X2. With a list of other than 12 third-placed teams
    [escolher_top8_terceiros_ui] selects nothing and reports that all 12
    must be defined; with 12 it returns the pairs whose box "third_<group>"
    is checked, in order, and reports the count exactly when it is not 8. *)
Theorem escolher_top8_terceiros_ui_spec (terceiros : list (string * string)) :
  let checked :=
    filter (λ e : string * string, checkbox ("third_" +:+ e.1)) terceiros in
  (length terceiros ≠ 12 →
   escolher_top8_terceiros_ui checkbox terceiros = ([], [err_thirds_undefined]))
  ∧ (length terceiros = 12 →
     (escolher_top8_terceiros_ui checkbox terceiros).1 = checked
     ∧ (length checked = 8 →
        (escolher_top8_terceiros_ui checkbox terceiros).2 = [])
     ∧ (length checked ≠ 8 →
        (escolher_top8_terceiros_ui checkbox terceiros).2
        = [select_8_error (length checked)])).
Proof.
  intros checked. unfold escolher_top8_terceiros_ui. split.
  - intros Hlen. by rewrite bool_decide_eq_true_2.
  - intros Hlen. rewrite bool_decide_eq_false_2 by (by intros ?).
    rewrite escolher_top8_fold. cbn [app]. fold checked.
    case_bool_decide as Hcount; cbn [fst snd].
    + split; [done|]. split; [by intros ?|done].
    + split; [done|]. split; [done|]. intros Hne. by destruct Hcount.
Qed.
End top8_spec.

Lemma escolher_top8_terceiros_ui_spec_witness :
  escolher_top8_terceiros_ui checkbox_A_to_H [("A", "South Korea")]
  = ([], [err_thirds_undefined])
  ∧ (escolher_top8_terceiros_ui (λ _, true)
       ((λ g, (g, "third of " +:+ g)) <$> GROUP_NAMES)).2
    = [select_8_error 12]
  ∧ (escolher_top8_terceiros_ui checkbox_A_to_H
       ((λ g, (g, "third of " +:+ g)) <$> GROUP_NAMES)).2
    = [].
Proof.
  split; [|split].
  - apply (escolher_top8_terceiros_ui_spec checkbox_A_to_H). cbn. lia.
  - destruct (escolher_top8_terceiros_ui_spec (λ _, true)
                ((λ g, (g, "third of " +:+ g)) <$> GROUP_NAMES))
      as [_ Hsel].
    destruct (Hsel eq_refl) as (_ & _ & Hcount).
    apply Hcount. vm_compute. lia.
  - destruct (escolher_top8_terceiros_ui_spec checkbox_A_to_H
                ((λ g, (g, "third of " +:+ g)) <$> GROUP_NAMES))
      as [_ Hsel].
    destruct (Hsel eq_refl) as (_ & Hcount & _).
    apply Hcount. vm_compute. reflexivity.
Defined.

(** ** Group standings, position by position *)

Lemma dict_set_new {V} (d : Dict.t V) (k : string) (v : V) :
  k ∉ Dict.keys d → Dict.set k v d = d ++ [(k, v)].
Proof.
  unfold Dict.keys.
  induction d as [|[k' v'] d IH]; cbn [Dict.set fmap list_fmap fst app];
    [done|].
  rewrite not_elem_of_cons. intros [Hne Hout].
  rewrite decide_False by done. by rewrite IH.
Qed.

Lemma dict_get_fmap {V} (f : string → V) (gs : list string) (g : string) :
  g ∈ gs → Dict.get ((λ g, (g, f g)) <$> gs) g = Some (f g).
Proof.
  induction gs as [|g' gs IH]; [by intros ?%elem_of_nil|].
  cbn [fmap list_fmap Dict.get]. intros Hin.
  case_decide as Hg; [by subst|].
  apply IH. by apply elem_of_cons in Hin as [?|?].
Qed.

Lemma validar_permutacao_intro (choices : list string) (empty : string) :
  empty ∉ choices → NoDup choices → validar_permutacao choices empty = true.
Proof.
  intros Hout Hnd. unfold validar_permutacao.
  rewrite bool_decide_eq_false_2 by done.
  by apply bool_decide_eq_true, size_list_to_set_NoDup.
Qed.

Section standings_by_position.
Variable selectbox : string → list string → string.
Hypothesis selectbox_contract : selectbox_picks_option selectbox.

(** Whatever was chosen so far, the next choice is the marker or a team of
    the group that was not chosen before. *)
Lemma escolher_posicoes_steps (g : string) (teams : list string)
    (positions : list nat) (pos_choices : list string) :
  Forall (λ c, c = "-" ∨ c ∈ teams) pos_choices →
  NoDup (filter (λ c, c ≠ "-") pos_choices) →
  let final :=
    foldl (λ (pos_choices : list string) (i : nat),
             let pos_num := i + 1 in
             let already_chosen := filter (λ c, c ≠ "-") pos_choices in
             let available_teams := filter (λ t, t ∉ already_chosen) teams in
             let options := "-" :: available_teams in
             let key := "group_" +:+ g +:+ "_pos_"
                        +:+ format_int (Z.of_nat pos_num) in
             let choice := selectbox key options in
             pos_choices ++ [choice])
          pos_choices positions in
  Forall (λ c, c = "-" ∨ c ∈ teams) final
  ∧ NoDup (filter (λ c, c ≠ "-") final).
Proof.
  revert pos_choices. induction positions as [|i positions IH];
    intros pos_choices Hteams Hnd; cbn [foldl]; [done|].
  cbn zeta. apply IH.
  - apply Forall_app. split; [done|]. apply Forall_singleton.
    match goal with |- selectbox ?k ?o = _ ∨ _ =>
      pose proof (selectbox_contract k o ltac:(done)) as Hopt end.
    apply elem_of_cons in Hopt as [?|Hopt]; [by left|right].
    by apply list_elem_of_filter in Hopt as [_ ?].
  - rewrite filter_app. apply NoDup_app. split; [done|].
    match goal with |- context [selectbox ?k ?o] =>
      pose proof (selectbox_contract k o ltac:(done)) as Hopt;
      generalize dependent (selectbox k o) end.
    intros choice Hopt. rewrite filter_cons, filter_nil.
    case_decide as Hmarker; [|split; [by intros ? ? ?%elem_of_nil|constructor]].
    split; [|apply NoDup_singleton].
    intros c Hc ->%list_elem_of_singleton.
    apply elem_of_cons in Hopt as [?|Hopt]; [done|].
    by apply list_elem_of_filter in Hopt as [? _].
Qed.

Lemma escolher_posicoes_choices (g : string) (teams : list string) :
  let pos_choices := escolher_posicoes selectbox g teams in
  (validar_permutacao pos_choices "-" = true ↔ "-" ∉ pos_choices)
  ∧ ("-" ∉ pos_choices →
     NoDup pos_choices
     ∧ pos_choices ⊆ teams
     ∧ (NoDup teams → length teams = 4 → pos_choices ≡ₚ teams)).
Proof.
  intros pos_choices.
  destruct (escolher_posicoes_steps g teams (seq 0 4) [])
    as [Hteams Hnd]; [constructor|constructor|].
  fold (escolher_posicoes selectbox g teams) in Hteams, Hnd.
  fold pos_choices in Hteams, Hnd.
  assert ("-" ∉ pos_choices → NoDup pos_choices ∧ pos_choices ⊆ teams)
    as Hfilled.
  { intros Hout. split.
    - replace pos_choices with (filter (λ c, c ≠ "-") pos_choices); [done|].
      clear -Hout. induction pos_choices as [|c cs IH]; [done|].
      apply not_elem_of_cons in Hout as [Hne Hout].
      rewrite filter_cons, decide_True by done. f_equal. by apply IH.
    - intros c Hc. rewrite Forall_forall in Hteams.
      destruct (Hteams c Hc) as [->|?]; done. }
  split; [split|].
  - by intros [? _]%validar_permutacao_true.
  - intros Hout. apply validar_permutacao_intro; [done|]. by apply Hfilled.
  - intros Hout. destruct (Hfilled Hout) as [Hnodup Hsub].
    split; [done|]. split; [done|]. intros Hteams_nd Hteams_len.
    apply submseteq_length_Permutation; [by apply NoDup_submseteq|].
    unfold pos_choices. rewrite escolher_posicoes_length. lia.
Qed.
End standings_by_position.

Section standings_closed_form.
Variable selectbox : string → list string → string.

Lemma standing_of_nil (groups : Dict.t (list string)) (g : string) teams :
  Dict.get groups g = Some teams →
  standing_of selectbox groups g = []
  ↔ validar_permutacao (escolher_posicoes selectbox g teams) "-" = false.
Proof.
  intros Hget. unfold standing_of. rewrite Hget.
  pose proof (escolher_posicoes_length selectbox g teams) as Hlen.
  destruct (validar_permutacao _ _); split;
    first [done | intros Hnil; by rewrite Hnil in Hlen].
Qed.

Lemma montar_classificacao_grupos_closed_form
    (groups : Dict.t (list string)) (gs : list string) :
  NoDup gs →
  (∀ g, g ∈ gs → is_Some (Dict.get groups g)) →
  foldl (classificar_grupo selectbox groups) (Some ([], [])) gs
  = Some ((λ g, (g, standing_of selectbox groups g)) <$> gs,
          fill_group_error
            <$> filter (λ g, standing_of selectbox groups g = []) gs).
Proof.
  induction gs as [|g gs IH] using rev_ind; intros Hnd Hgroups; [done|].
  apply NoDup_app in Hnd as (Hnd & Hfresh & _).
  assert (g ∉ gs) as Hg.
  { intros Hin. apply (Hfresh _ Hin). by apply list_elem_of_singleton. }
  rewrite foldl_snoc, IH;
    [|done|by intros; apply Hgroups, elem_of_app; left].
  unfold classificar_grupo. cbn [mbind option_bind].
  destruct (Hgroups g) as [teams Hget]; [apply elem_of_app; right; by left|].
  rewrite Hget. cbn [mbind option_bind].
  pose proof (standing_of_nil groups g teams Hget) as Hnil.
  assert (g ∉ Dict.keys ((λ g, (g, standing_of selectbox groups g)) <$> gs))
    as Hkey.
  { unfold Dict.keys. rewrite <- list_fmap_compose.
    by change (g ∉ id <$> gs); rewrite list_fmap_id. }
  rewrite !dict_set_new by done.
  rewrite !fmap_app, filter_app, filter_cons, filter_nil, fmap_app.
  cbn [fmap list_fmap].
  destruct (validar_permutacao _ "-") eqn:Hvalid.
  - assert (standing_of selectbox groups g = escolher_posicoes selectbox g teams)
      as Hst by (unfold standing_of; by rewrite Hget, Hvalid).
    rewrite decide_False; [by rewrite Hst, app_nil_r|].
    intros Hempty%Hnil. congruence.
  - assert (standing_of selectbox groups g = []) as Hst by by apply Hnil.
    rewrite decide_True by done. by rewrite Hst.
Qed.
End standings_closed_form.

(** X3. Standings and errors come in the order of the groups: the standings
    bind every group of [GROUP_NAMES], in that order, to its four choices
    when they are valid and to the empty list otherwise, and the errors are
    the messages of the rejected groups, in that order, one each. *)
Theorem montar_classificacao_grupos_in_group_order
    (selectbox : string → list string → string)
    (groups : Dict.t (list string)) :
  (∀ g, g ∈ GROUP_NAMES → is_Some (Dict.get groups g)) →
  montar_classificacao_grupos selectbox groups
  = Some ((λ g, (g, standing_of selectbox groups g)) <$> GROUP_NAMES,
          fill_group_error
            <$> filter (λ g, standing_of selectbox groups g = []) GROUP_NAMES).
Proof.
  intros Hgroups. unfold montar_classificacao_grupos.
  apply montar_classificacao_grupos_closed_form; [|done].
  apply GROUP_NAMES_NoDup.
Qed.

Lemma montar_classificacao_grupos_in_group_order_witness :
  montar_classificacao_grupos selectbox_first INITIAL_GROUPS
  = Some ((λ g, (g, standing_of selectbox_first INITIAL_GROUPS g))
            <$> GROUP_NAMES,
          fill_group_error
            <$> filter (λ g, standing_of selectbox_first INITIAL_GROUPS g = [])
                       GROUP_NAMES).
Proof.
  exact (montar_classificacao_grupos_in_group_order selectbox_first
           INITIAL_GROUPS INITIAL_GROUPS_total).
Defined.

(** X4. When every select box returns one of its options, a team chosen for
    one position is not offered again: a group is rejected exactly when one
    of its positions is left at the marker, and an accepted standing ranks
    teams of the group without repetition, hence each of its four teams
    exactly once. *)
Theorem standings_rank_each_team_once
    (selectbox : string → list string → string)
    (groups : Dict.t (list string)) (g : string) (teams : list string) :
  selectbox_picks_option selectbox →
  (∀ g, g ∈ GROUP_NAMES → is_Some (Dict.get groups g)) →
  g ∈ GROUP_NAMES →
  Dict.get groups g = Some teams →
  ∃ standings errors,
    montar_classificacao_grupos selectbox groups = Some (standings, errors)
    ∧ let pos_choices := escolher_posicoes selectbox g teams in
      ("-" ∈ pos_choices →
       Dict.get standings g = Some [] ∧ fill_group_error g ∈ errors)
      ∧ ("-" ∉ pos_choices →
         Dict.get standings g = Some pos_choices
         ∧ (fill_group_error g ∉ errors)
         ∧ NoDup pos_choices
         ∧ pos_choices ⊆ teams
         ∧ (NoDup teams → length teams = 4 → pos_choices ≡ₚ teams)).
Proof.
  intros Hcontract Hgroups Hg Hget. eexists _, _. split.
  { unfold montar_classificacao_grupos.
    apply montar_classificacao_grupos_closed_form;
      [apply GROUP_NAMES_NoDup|done]. }
  intros pos_choices.
  destruct (escolher_posicoes_choices selectbox Hcontract g teams)
    as [Hvalid Hfilled].
  fold pos_choices in Hvalid, Hfilled.
  rewrite dict_get_fmap by done.
  assert (fill_group_error g
            ∈ fill_group_error
                <$> filter (λ g, standing_of selectbox groups g = []) GROUP_NAMES
          ↔ standing_of selectbox groups g = []) as Herr.
  { rewrite list_elem_of_fmap. split.
    - intros (g' & ->%fill_group_error_inj & Hin).
      by apply list_elem_of_filter in Hin as [? _].
    - intros Hnil. exists g. split; [done|]. by apply list_elem_of_filter. }
  rewrite Herr. rewrite (standing_of_nil selectbox groups g teams Hget).
  fold pos_choices. unfold standing_of. rewrite Hget. fold pos_choices.
  split.
  - intros Hin.
    assert (validar_permutacao pos_choices "-" = false) as ->; [|done].
    apply not_true_is_false. by intros ?%Hvalid.
  - intros Hout. rewrite (proj2 Hvalid Hout). split; [done|].
    split; [done|]. by apply Hfilled.
Qed.

Lemma selectbox_second_picks_option : selectbox_picks_option selectbox_second.
Proof.
  intros key [|x [|y options]] Hsome; [done|..]; cbn [selectbox_second].
  - by left.
  - right. by left.
Qed.

Lemma standings_rank_each_team_once_witness :
  ∃ standings errors,
    montar_classificacao_grupos selectbox_second INITIAL_GROUPS
    = Some (standings, errors)
    ∧ let pos_choices :=
        escolher_posicoes selectbox_second "C"
          ["Brazil"; "Morrocco"; "Haiti"; "Scotland"] in
      ("-" ∈ pos_choices →
       Dict.get standings "C" = Some [] ∧ fill_group_error "C" ∈ errors)
      ∧ ("-" ∉ pos_choices →
         Dict.get standings "C" = Some pos_choices
         ∧ (fill_group_error "C" ∉ errors)
         ∧ NoDup pos_choices
         ∧ pos_choices ⊆ ["Brazil"; "Morrocco"; "Haiti"; "Scotland"]
         ∧ (NoDup ["Brazil"; "Morrocco"; "Haiti"; "Scotland"] →
            length ["Brazil"; "Morrocco"; "Haiti"; "Scotland"] = 4 →
            pos_choices ≡ₚ ["Brazil"; "Morrocco"; "Haiti"; "Scotland"])).
Proof.
  apply (standings_rank_each_team_once selectbox_second INITIAL_GROUPS "C").
  - exact selectbox_second_picks_option.
  - exact INITIAL_GROUPS_total.
  - rewrite GROUP_NAMES_eq, !elem_of_cons. right; right; by left.
  - reflexivity.
Defined.

(** ** The pages the script can end on *)

Lemma dict_get_of_elem {V} (d : Dict.t V) (k : string) (v : V) :
  NoDup (Dict.keys d) → (k, v) ∈ d → Dict.get d k = Some v.
Proof.
  unfold Dict.keys.
  induction d as [|[k' v'] d IH]; cbn [Dict.get fmap list_fmap fst].
  - intros _ Hin. by apply elem_of_nil in Hin.
  - rewrite NoDup_cons, elem_of_cons. intros [Hout Hnd] [[= <- <-]|Hin].
    + by rewrite decide_True.
    + rewrite decide_False; [by apply IH|].
      intros <-. apply Hout. apply list_elem_of_fmap. by exists (k, v).
Qed.

Lemma coletar_terceiros_length_all (standings : Dict.t (list string)) :
  Forall (λ e : string * list string, length e.2 = 4) standings →
  length (coletar_terceiros standings) = length standings.
Proof.
  rewrite coletar_terceiros_omap.
  induction 1 as [|[g pos] standings Hlen _ IH]; [done|].
  cbn [omap list_omap fst snd] in *.
  rewrite bool_decide_eq_true_2 by done. cbn [length]. by rewrite IH.
Qed.

(** Once no group reports an error, all 12 third-placed teams are defined. *)
Lemma thirds_all_defined (standings : Dict.t (list string)) :
  standings_after GROUP_NAMES standings [] →
  length (coletar_terceiros standings) = 12.
Proof.
  intros (Hkeys & _ & Hinv). unfold Dict.keys in Hkeys.
  rewrite coletar_terceiros_length_all.
  - by rewrite <- (length_fmap fst), Hkeys.
  - apply Forall_forall. intros [g pos] Hin. cbn [snd].
    assert (g ∈ GROUP_NAMES) as Hg.
    { rewrite <- Hkeys. apply list_elem_of_fmap. by exists (g, pos). }
    destruct (Hinv g Hg) as (st & Hget & Hst & Herr).
    rewrite (dict_get_of_elem standings g pos) in Hget;
      [|unfold Dict.keys; rewrite Hkeys; apply GROUP_NAMES_NoDup|done].
    injection Hget as <-.
    destruct Hst as [->|[Hlen _]]; [|done].
    destruct Herr as [_ Herr]. by apply elem_of_nil in Herr.
Qed.

(** X5. Whatever the operator does, the script ends on a page and raises
    nothing.  The page is the issues of the rejected groups (one known
    message per group, at least one), or a wrong number of qualified
    third-placed teams with that number, or the bracket; the errors "All 12
    third-placed teams must be defined first" and "Unable to assign" are
    handled and never shown. *)
Theorem app_ends_on_expected_page
    (selectbox : string → list string → string) (checkbox : string → bool)
    (radio : string → list string → option string) :
  ∃ p, app selectbox checkbox radio = Some p ∧ page_expected p.
Proof.
  pose proof (app_total selectbox checkbox radio) as Htotal.
  pose proof (app_assigns_thirds selectbox checkbox radio) as Hno32.
  destruct (app selectbox checkbox radio) as [p|] eqn:Happ;
    [|by destruct Htotal].
  exists p. split; [done|]. clear Htotal. revert Happ. unfold app.
  destruct (montar_classificacao_grupos_prefix selectbox INITIAL_GROUPS
              GROUP_NAMES GROUP_NAMES_NoDup INITIAL_GROUPS_total)
    as (standings & errors_groups & Hfold & Hafter).
  unfold montar_classificacao_grupos. rewrite Hfold. cbn [mbind option_bind].
  case_bool_decide as Hgroups; cbn [negb].
  2:{ intros [= <-]. split; [done|]. by destruct Hafter as (_ & Herrs & _). }
  subst errors_groups. apply thirds_all_defined in Hafter.
  unfold escolher_top8_terceiros_ui.
  rewrite bool_decide_eq_false_2 by (by intros ?).
  rewrite escolher_top8_fold. cbn [app].
  set (checked := filter _ (coletar_terceiros standings)).
  case_bool_decide as Hcount; cbn [negb].
  - rewrite bool_decide_eq_false_2 by done. cbn [negb]. intros [= <-].
    exists (length checked). split; [done|]. split; [|done].
    rewrite <- Hafter. apply sublist_length, sublist_filter.
  - rewrite bool_decide_eq_true_2 by done. cbn [negb].
    destruct (montar_round32 _ _) as [[jogos_r32 err]|]; [|done].
    cbn [mbind option_bind]. destruct (truthy err).
    + intros [= <-]. by destruct (Hno32 err).
    + destruct (chaveamento radio jogos_r32); [|done]. by intros [= <-].
Qed.

(** ** More on the search *)

(** X6. [backtrack] keeps its two mutable objects in step.  Started with
    every key of [assignment] in [used_matches], a successful search adds
    one slot per pair to [used_matches], leaves the entries that were there
    untouched and again has every key of [assignment] in [used_matches]; a
    failed search hands both objects back as it received them. *)
Theorem backtrack_keeps_books (qs : list (string * string))
    (used : gset string) (assignment : gmap string (string * string)) :
  (∀ mid, mid ∉ used → assignment !! mid = None) →
  match backtrack qs used assignment with
  | (true, used', assignment') =>
      used ⊆ used'
      ∧ size used' = size used + length qs
      ∧ (∀ mid, mid ∈ used → assignment' !! mid = assignment !! mid)
      ∧ (∀ mid, mid ∉ used' → assignment' !! mid = None)
  | (false, used', assignment') =>
      used' = used ∧ assignment' = assignment
  end.
Proof.
  intros Hdom.
  destruct (backtrack_correct qs used assignment Hdom)
    as [(mids & (Hall & Hnd & Hfree) & -> & _)|[-> _]]; [|done].
  split; [|split; [|split]].
  - intros mid Hmid. apply elem_of_union. by right.
  - rewrite size_union.
    + rewrite size_list_to_set by done.
      apply Forall2_length in Hall. lia.
    + intros mid Hmid%elem_of_list_to_set Hused. by apply (Hfree mid).
  - intros mid Hmid. apply place_lookup_notin.
    intros Hin. by apply (Hfree mid).
  - intros mid [Hmids Hused]%not_elem_of_union.
    rewrite place_lookup_notin; [by apply Hdom|].
    intros Hin. apply Hmids. by apply elem_of_list_to_set.
Qed.

Lemma backtrack_keeps_books_witness :
  match backtrack qualified_example ∅ ∅ with
  | (true, used', assignment') =>
      (∅ : gset string) ⊆ used'
      ∧ size used' = size (∅ : gset string) + length qualified_example
      ∧ (∀ mid, mid ∈ (∅ : gset string) →
                assignment' !! mid = (∅ : gmap string (string * string)) !! mid)
      ∧ (∀ mid, mid ∉ used' → assignment' !! mid = None)
  | (false, used', assignment') =>
      used' = ∅ ∧ assignment' = ∅
  end.
Proof.
  apply (backtrack_keeps_books qualified_example ∅ ∅).
  intros mid _. apply lookup_empty.
Defined.

(** X7. The slots depend on the groups only: two lists of pairs with the
    same groups, position by position, are either both refused with the
    same error or have every position sent to the same slot. *)
Theorem distribuir_terceiros_nos_jogos_ignores_teams
    (qs1 qs2 : list (string * string)) :
  qs1.*1 = qs2.*1 →
  (∃ mids,
      distribuir_terceiros_nos_jogos qs1 = (Some (place qs1 mids ∅), None)
      ∧ distribuir_terceiros_nos_jogos qs2 = (Some (place qs2 mids ∅), None))
  ∨ (∃ err,
        distribuir_terceiros_nos_jogos qs1 = (None, Some err)
        ∧ distribuir_terceiros_nos_jogos qs2 = (None, Some err)).
Proof.
  intros Hgroups.
  assert (length qs1 = length qs2) as Hlen.
  { by rewrite <- (length_fmap fst qs1), Hgroups, length_fmap. }
  unfold distribuir_terceiros_nos_jogos. rewrite Hlen.
  case_bool_decide; [right; by eexists|].
  destruct (backtrack_from_scratch qs1)
    as [(mids1 & Hm1 & -> & Hleast1)|[-> Hnone1]],
     (backtrack_from_scratch qs2)
    as [(mids2 & Hm2 & -> & Hleast2)|[-> Hnone2]].
  - left. exists mids1. split; [done|].
    replace mids2 with mids1; [done|].
    apply slots_lex_le_antisym.
    + apply Hleast1. by apply (matching_groups_only _ qs2).
    + apply Hleast2. by apply (matching_groups_only _ qs1).
  - destruct (Hnone2 mids1). by apply (matching_groups_only _ qs1).
  - destruct (Hnone1 mids2). by apply (matching_groups_only _ qs2).
  - right. by eexists.
Qed.

Lemma distribuir_terceiros_nos_jogos_ignores_teams_witness :
  (∃ mids,
      distribuir_terceiros_nos_jogos qualified_example
      = (Some (place qualified_example mids ∅), None)
      ∧ distribuir_terceiros_nos_jogos ((λ g, (g, "")) <$> qualified_example.*1)
        = (Some (place ((λ g, (g, "")) <$> qualified_example.*1) mids ∅), None))
  ∨ (∃ err,
        distribuir_terceiros_nos_jogos qualified_example = (None, Some err)
        ∧ distribuir_terceiros_nos_jogos
            ((λ g, (g, "")) <$> qualified_example.*1)
          = (None, Some err)).
Proof.
  apply distribuir_terceiros_nos_jogos_ignores_teams. reflexivity.
Defined.

(** X8. The table of slots serves every choice of 8 of the 12 groups: for
    8 pairs of pairwise distinct groups of [GROUP_NAMES], in any order, the
    engine returns an assignment and never the "Unable to assign" error. *)
Theorem distribuir_terceiros_nos_jogos_serves_any_8_groups
    (qualified : list (string * string)) :
  NoDup qualified.*1 →
  qualified.*1 ⊆ GROUP_NAMES →
  length qualified = 8 →
  ∃ assignment,
    distribuir_terceiros_nos_jogos qualified = (Some assignment, None).
Proof.
  intros Hnd Hsub Hlen.
  set (sorted := filter (λ g, g ∈ qualified.*1) GROUP_NAMES).
  assert (sorted ≡ₚ qualified.*1) as Hperm.
  { apply NoDup_Permutation; [|done|].
    - apply NoDup_filter, GROUP_NAMES_NoDup.
    - intros g. unfold sorted. rewrite list_elem_of_filter. split; [tauto|].
      intros Hg. split; [done|]. by apply Hsub. }
  destruct (table_admits_matching ((λ g, (g, "")) <$> sorted))
    as (mids & Hall & Hmids_nd & _).
  { rewrite <- list_fmap_compose. change (sublist (id <$> sorted) GROUP_NAMES).
    rewrite list_fmap_id. apply sublist_filter. }
  { rewrite length_fmap, Hperm, length_fmap. done. }
  rewrite Forall2_fmap_l in Hall.
  destruct (Permutation_Forall2 Hperm Hall) as (mids' & Hmids & Hall').
  rewrite Forall2_fmap_l in Hall'.
  assert (matching ∅ qualified mids') as Hm.
  { split; [|split].
    - eapply Forall2_impl; [exact Hall'|]. by intros [g team] mid.
    - by rewrite <- Hmids.
    - intros mid _. apply not_elem_of_empty. }
  unfold distribuir_terceiros_nos_jogos.
  rewrite bool_decide_eq_false_2 by (by intros ?).
  destruct (backtrack_from_scratch qualified)
    as [(mids0 & _ & -> & _)|[_ Hnone]]; [by eexists|by destruct (Hnone mids')].
Qed.

Lemma distribuir_terceiros_nos_jogos_serves_any_8_groups_witness :
  ∃ assignment,
    distribuir_terceiros_nos_jogos (reverse qualified_example)
    = (Some assignment, None).
Proof.
  apply distribuir_terceiros_nos_jogos_serves_any_8_groups.
  - compute_done.
  - compute_done.
  - reflexivity.
Defined.

(** ** The games of the round of 32 *)

Lemma fixed_games_lookup_notin standings
    (entries : list (string * (string * string)))
    (jogos : gmap string jogo) (mid : string) :
  mid ∉ entries.*1 →
  foldl (fixed_game standings) jogos entries !! mid = jogos !! mid.
Proof.
  revert jogos. induction entries as [|[mid0 [code1 code2]] entries IH];
    intros jogos; cbn [foldl fmap list_fmap fst]; [done|].
  rewrite not_elem_of_cons. intros [Hne Hout].
  rewrite IH by done. cbn [fixed_game]. by rewrite lookup_insert_ne.
Qed.

Lemma fixed_games_lookup standings
    (entries : list (string * (string * string)))
    (jogos : gmap string jogo) (mid code1 code2 : string) :
  NoDup entries.*1 → (mid, (code1, code2)) ∈ entries →
  foldl (fixed_game standings) jogos entries !! mid
  = Some (extrair_time code1 standings, extrair_time code2 standings,
          code1 +:+ " vs " +:+ code2).
Proof.
  revert jogos. induction entries as [|[mid0 [c1 c2]] entries IH];
    intros jogos; cbn [foldl fmap list_fmap fst].
  - intros _ Hin. by apply elem_of_nil in Hin.
  - rewrite NoDup_cons, elem_of_cons. intros [Hout Hnd] [[= <- <- <-]|Hin].
    + rewrite fixed_games_lookup_notin by done. cbn [fixed_game].
      by rewrite lookup_insert_eq.
    + by apply IH.
Qed.

Lemma third_games_lookup_notin standings
    (jogos_terceiros : gmap string (string * string))
    (entries : list (string * (string * list string)))
    (jogos0 jogos : gmap string jogo) (mid : string) :
  foldl (third_game standings jogos_terceiros) (Some jogos0) entries
  = Some jogos →
  mid ∉ entries.*1 → jogos !! mid = jogos0 !! mid.
Proof.
  revert jogos0. induction entries as [|[mid0 [code1 allowed]] entries IH];
    intros jogos0; cbn [foldl fmap list_fmap fst].
  - by intros [= ->].
  - cbn [third_game mbind option_bind].
    destruct (jogos_terceiros !! mid0) as [[group_3 team_3]|];
      cbn [mbind option_bind].
    + intros Hfold [Hne Hout]%not_elem_of_cons.
      rewrite (IH _ Hfold Hout). by rewrite lookup_insert_ne.
    + intros Hfold. exfalso. revert Hfold. clear.
      induction entries as [|[m [c a]] entries IH]; cbn [foldl]; [done|].
      exact IH.
Qed.

Lemma third_games_lookup standings
    (jogos_terceiros : gmap string (string * string))
    (entries : list (string * (string * list string)))
    (jogos0 jogos : gmap string jogo) (mid code1 : string)
    (allowed : list string) :
  foldl (third_game standings jogos_terceiros) (Some jogos0) entries
  = Some jogos →
  NoDup entries.*1 → (mid, (code1, allowed)) ∈ entries →
  ∃ group team,
    jogos_terceiros !! mid = Some (group, team)
    ∧ jogos !! mid
      = Some (extrair_time code1 standings, Some team,
              code1 +:+ " vs " +:+ ("3" +:+ group)).
Proof.
  revert jogos0. induction entries as [|[mid0 [c1 a1]] entries IH];
    intros jogos0; cbn [foldl fmap list_fmap fst].
  - intros _ _ Hin. by apply elem_of_nil in Hin.
  - cbn [third_game mbind option_bind].
    destruct (jogos_terceiros !! mid0) as [[group_3 team_3]|] eqn:Hslot;
      cbn [mbind option_bind].
    + intros Hfold [Hout Hnd]%NoDup_cons [[= <- <- <-]|Hin]%elem_of_cons.
      * exists group_3, team_3. split; [done|].
        rewrite (third_games_lookup_notin _ _ _ _ _ _ Hfold Hout).
        by rewrite lookup_insert_eq.
      * by apply (IH _ Hfold).
    + intros Hfold. exfalso. revert Hfold. clear.
      induction entries as [|[m [c a]] entries IH]; cbn [foldl]; [done|].
      exact IH.
Qed.

Lemma round32_tables_keys :
  NoDup (Dict.keys ROUND32_FIXED)
  ∧ NoDup (Dict.keys ROUND32_THIRD_SLOTS)
  ∧ (∀ mid, mid ∈ Dict.keys ROUND32_FIXED → mid ∉ Dict.keys ROUND32_THIRD_SLOTS).
Proof.
  split; [compute_done|]. split; [compute_done|].
  apply Forall_forall. compute_done.
Qed.

(** What [montar_round32] has built when it reports no error; [mids] is the
    matching the engine found. *)
Lemma montar_round32_built standings qualified_thirds (jogos : gmap string jogo) :
  montar_round32 standings qualified_thirds = Some (jogos, None) →
  ∃ mids,
    matching ∅ qualified_thirds mids
    ∧ length qualified_thirds = 8
    ∧ (∀ mid code1 code2,
         (mid, (code1, code2)) ∈ ROUND32_FIXED →
         jogos !! mid
         = Some (extrair_time code1 standings, extrair_time code2 standings,
                 code1 +:+ " vs " +:+ code2))
    ∧ (∀ mid code1 allowed,
         (mid, (code1, allowed)) ∈ ROUND32_THIRD_SLOTS →
         ∃ i group team,
           qualified_thirds !! i = Some (group, team)
           ∧ mids !! i = Some mid
           ∧ group ∈ allowed
           ∧ jogos !! mid
             = Some (extrair_time code1 standings, Some team,
                     code1 +:+ " vs " +:+ ("3" +:+ group)))
    ∧ (∀ mid, mid ∉ order32 → jogos !! mid = None).
Proof.
  unfold montar_round32, distribuir_terceiros_nos_jogos.
  case_bool_decide as Hlen; [done|].
  assert (length qualified_thirds = 8) as Hlen8 by lia.
  destruct (backtrack_from_scratch qualified_thirds)
    as [(mids & Hm & -> & _)|[-> _]]; [|done].
  cbn [truthy mbind option_bind].
  destruct (foldl (third_game _ _) _ _) as [jogos'|] eqn:Hthird; [|done].
  cbn [mbind option_bind]. intros [= <-].
  destruct round32_tables_keys as (Hfixed_nd & Hthird_nd & Hdisjoint).
  exists mids. split; [done|]. split; [done|]. split; [|split].
  - intros mid code1 code2 Hin.
    rewrite (third_games_lookup_notin _ _ _ _ _ _ Hthird).
    + by apply fixed_games_lookup.
    + apply Hdisjoint, list_elem_of_fmap. by exists (mid, (code1, code2)).
  - intros mid code1 allowed Hin.
    destruct (third_games_lookup _ _ _ _ _ _ _ _ Hthird Hthird_nd Hin)
      as (group & team & Hslot & Hgame).
    apply place_lookup_inv in Hslot as [Hempty|(i & Hq & Hmid)];
      [by rewrite lookup_empty in Hempty|].
    exists i, group, team. split; [done|]. split; [done|]. split; [|done].
    destruct Hm as (Hall & _).
    destruct (Forall2_lookup_l _ _ _ _ _ Hall Hq) as (mid' & Hmid' & [_ Hel]).
    rewrite Hmid in Hmid'. injection Hmid' as <-.
    unfold allowed_groups in Hel.
    by rewrite (dict_get_of_elem _ _ _ Hthird_nd Hin) in Hel.
  - intros mid Hout.
    assert (mid ∉ round32_ids) as Hout'.
    { destruct bracket_tables_ids as [_ Hperm]. by rewrite Hperm. }
    apply not_elem_of_app in Hout' as [Hf Ht].
    rewrite (third_games_lookup_notin _ _ _ _ _ _ Hthird Ht).
    by rewrite fixed_games_lookup_notin.
Qed.

Lemma third_slots_other_groups :
  Forall (λ e : string * (string * list string),
            Forall (λ g, e.2.1 ≠ "1" +:+ g) e.2.2)
         ROUND32_THIRD_SLOTS.
Proof. compute_done. Qed.

(** X9. When [montar_round32] reports no error it has built exactly the 16
    games of [order32]: a fixed game holds the teams of its two seed codes;
    a third-place slot holds the team of its seed code against one of the 8
    qualified teams, of a group the slot allows, described as
    "<code> vs 3<group>"; and every qualified team is in one of the slots. *)
Theorem montar_round32_games standings qualified_thirds
    (jogos : gmap string jogo) :
  montar_round32 standings qualified_thirds = Some (jogos, None) →
  dom jogos = list_to_set order32
  ∧ (∀ mid code1 code2,
       (mid, (code1, code2)) ∈ ROUND32_FIXED →
       jogos !! mid
       = Some (extrair_time code1 standings, extrair_time code2 standings,
               code1 +:+ " vs " +:+ code2))
  ∧ (∀ mid code1 allowed,
       (mid, (code1, allowed)) ∈ ROUND32_THIRD_SLOTS →
       ∃ group team,
         (group, team) ∈ qualified_thirds
         ∧ group ∈ allowed
         ∧ jogos !! mid
           = Some (extrair_time code1 standings, Some team,
                   code1 +:+ " vs " +:+ ("3" +:+ group)))
  ∧ (∀ group team,
       (group, team) ∈ qualified_thirds →
       ∃ mid code1 allowed t1 desc,
         (mid, (code1, allowed)) ∈ ROUND32_THIRD_SLOTS
         ∧ jogos !! mid = Some (t1, Some team, desc)).
Proof.
  intros (mids & Hm & Hlen & Hfixed & Hthird & Hother)%montar_round32_built.
  split; [|split; [done|split]].
  - apply set_eq. intros mid. rewrite elem_of_dom, elem_of_list_to_set.
    split.
    + intros Hsome. apply dec_stable. intros Hout.
      rewrite (Hother mid Hout) in Hsome. by destruct Hsome.
    + intros Hin. destruct bracket_tables_ids as [_ Hperm].
      rewrite <- Hperm in Hin.
      apply elem_of_app in Hin as [Hin|Hin];
        apply list_elem_of_fmap in Hin as ([mid' [a b]] & -> & Hin);
        cbn [fst].
      * by rewrite (Hfixed _ _ _ Hin).
      * destruct (Hthird _ _ _ Hin) as (i & group & team & _ & _ & _ & ->).
        done.
  - intros mid code1 allowed Hin.
    destruct (Hthird _ _ _ Hin) as (i & group & team & Hq & _ & Hg & Hgame).
    exists group, team. split; [|done].
    apply list_elem_of_lookup. by exists i.
  - intros group team [i Hq]%list_elem_of_lookup.
    pose proof (matching_uses_every_slot _ _ _ Hlen Hm) as Hperm.
    destruct Hm as (Hall & Hnd & _).
    destruct (Forall2_lookup_l _ _ _ _ _ Hall Hq) as (mid & Hmid & [Hslot _]).
    apply list_elem_of_fmap in Hslot as ([mid' [code1 allowed]] & -> & Hin).
    destruct (Hthird _ _ _ Hin)
      as (i' & group' & team' & Hq' & Hmid' & _ & Hgame).
    assert (i' = i) as -> by by eapply NoDup_lookup.
    rewrite Hq in Hq'. injection Hq' as <- <-.
    by eexists _, _, _, _, _.
Qed.

Lemma montar_round32_example :
  montar_round32 INITIAL_GROUPS qualified_example = Some (jogos_example, None).
Proof. vm_compute. reflexivity. Qed.

Lemma montar_round32_games_witness :
  dom jogos_example = list_to_set order32
  ∧ (∀ mid code1 code2,
       (mid, (code1, code2)) ∈ ROUND32_FIXED →
       jogos_example !! mid
       = Some (extrair_time code1 INITIAL_GROUPS,
               extrair_time code2 INITIAL_GROUPS,
               code1 +:+ " vs " +:+ code2))
  ∧ (∀ mid code1 allowed,
       (mid, (code1, allowed)) ∈ ROUND32_THIRD_SLOTS →
       ∃ group team,
         (group, team) ∈ qualified_example
         ∧ group ∈ allowed
         ∧ jogos_example !! mid
           = Some (extrair_time code1 INITIAL_GROUPS, Some team,
                   code1 +:+ " vs " +:+ ("3" +:+ group)))
  ∧ (∀ group team,
       (group, team) ∈ qualified_example →
       ∃ mid code1 allowed t1 desc,
         (mid, (code1, allowed)) ∈ ROUND32_THIRD_SLOTS
         ∧ jogos_example !! mid = Some (t1, Some team, desc)).
Proof.
  exact (montar_round32_games INITIAL_GROUPS qualified_example jogos_example
           montar_round32_example).
Defined.

(** X10. No third-placed team is drawn against the winner of its own group:
    in the game of a third-place slot, "1<X> vs 3<G>", the groups X and G
    differ. *)
Theorem third_never_meets_own_group_winner standings qualified_thirds
    (jogos : gmap string jogo) (mid code1 : string) (allowed : list string) :
  montar_round32 standings qualified_thirds = Some (jogos, None) →
  (mid, (code1, allowed)) ∈ ROUND32_THIRD_SLOTS →
  ∃ group team,
    (group, team) ∈ qualified_thirds
    ∧ jogos !! mid
      = Some (extrair_time code1 standings, Some team,
              code1 +:+ " vs " +:+ ("3" +:+ group))
    ∧ code1 ≠ "1" +:+ group.
Proof.
  intros (mids & _ & _ & _ & Hthird & _)%montar_round32_built Hin.
  destruct (Hthird _ _ _ Hin) as (i & group & team & Hq & _ & Hg & Hgame).
  exists group, team. split; [|split; [done|]].
  - apply list_elem_of_lookup. by exists i.
  - pose proof third_slots_other_groups as Htable.
    rewrite Forall_forall in Htable. specialize (Htable _ Hin).
    rewrite Forall_forall in Htable. by apply (Htable group).
Qed.

Lemma third_never_meets_own_group_winner_witness :
  ∃ group team,
    (group, team) ∈ qualified_example
    ∧ jogos_example !! "M74"
      = Some (extrair_time "1E" INITIAL_GROUPS, Some team,
              "1E" +:+ " vs " +:+ ("3" +:+ group))
    ∧ "1E" ≠ "1" +:+ group.
Proof.
  apply (third_never_meets_own_group_winner INITIAL_GROUPS qualified_example
           jogos_example "M74" "1E" ["A"; "B"; "C"; "D"; "F"]).
  - exact montar_round32_example.
  - unfold ROUND32_THIRD_SLOTS. apply elem_of_cons. by left.
Defined.

(** ** Winners going up the bracket *)

Section propagation.
Variable radio : string → list string → option string.

Lemma jogar_rodada_unfold (matches : Dict.t (string * string))
    (prev : gmap string (option string))
    (acc : gmap string (option string) * list match_view) :
  foldl (λ (acc : gmap string (option string) * list match_view)
           '(mid, (m1, m2)),
           let '(winners, shown) := acc in
           let t1 := winners_get prev m1 in
           let t2 := winners_get prev m2 in
           let w := escolher_vencedor_ui radio mid t1 t2 in
           (<[mid := w]> winners,
            shown ++ [MatchView mid ("Winner " +:+ m1 +:+ " vs Winner " +:+ m2)
                                t1 t2 w]))
        acc matches
  = (foldl (λ (winners : gmap string (option string))
              (e : string * (string * string)),
              <[e.1 := mv_winner (partida radio prev e)]> winners)
           acc.1 matches,
     acc.2 ++ (partida radio prev <$> matches)).
Proof.
  revert acc. induction matches as [|[mid [m1 m2]] matches IH];
    intros [winners shown]; cbn [foldl fmap list_fmap fst snd].
  - by rewrite app_nil_r.
  - rewrite IH. cbn [fst snd]. by rewrite <- app_assoc.
Qed.

Lemma jogar_rodada_closed (matches : Dict.t (string * string))
    (prev : gmap string (option string)) :
  jogar_rodada radio matches prev
  = (foldl (λ (winners : gmap string (option string))
              (e : string * (string * string)),
              <[e.1 := mv_winner (partida radio prev e)]> winners)
           ∅ matches,
     partida radio prev <$> matches).
Proof. unfold jogar_rodada, Dict.items. by rewrite jogar_rodada_unfold. Qed.

Lemma round_winners_notin (matches : Dict.t (string * string))
    (prev winners : gmap string (option string)) (m : string) :
  m ∉ Dict.keys matches →
  foldl (λ (winners : gmap string (option string))
           (e : string * (string * string)),
           <[e.1 := mv_winner (partida radio prev e)]> winners)
        winners matches !! m
  = winners !! m.
Proof.
  unfold Dict.keys. revert winners.
  induction matches as [|e matches IH]; intros winners;
    cbn [foldl fmap list_fmap]; [done|].
  rewrite not_elem_of_cons. intros [Hne Hout].
  rewrite IH by done. by rewrite lookup_insert_ne.
Qed.

(** The winner recorded under the identifier of a match is the winner its
    view shows. *)
Lemma jogar_rodada_winner_get (matches : Dict.t (string * string))
    (prev : gmap string (option string)) (e : string * (string * string)) :
  NoDup (Dict.keys matches) → e ∈ matches →
  winners_get (jogar_rodada radio matches prev).1 e.1
  = mv_winner (partida radio prev e).
Proof.
  rewrite jogar_rodada_closed. unfold winners_get. cbn [fst].
  generalize (∅ : gmap string (option string)).
  unfold Dict.keys.
  induction matches as [|e0 matches IH]; intros winners;
    cbn [foldl fmap list_fmap].
  - intros _ Hin. by apply elem_of_nil in Hin.
  - rewrite NoDup_cons, elem_of_cons. intros [Hout Hnd] [->|Hin].
    + rewrite round_winners_notin by done. by rewrite lookup_insert_eq.
    + by apply IH.
Qed.

(** A winner read from a round was shown as the winner of one of its
    matches. *)
Lemma jogar_rodada_winner_from (matches : Dict.t (string * string))
    (prev : gmap string (option string)) (m t : string) :
  winners_get (jogar_rodada radio matches prev).1 m = Some t →
  ∃ e, e ∈ matches ∧ mv_winner (partida radio prev e) = Some t.
Proof.
  rewrite jogar_rodada_closed. unfold winners_get. cbn [fst].
  induction matches as [|e matches IH] using rev_ind.
  - cbn [foldl]. by rewrite lookup_empty.
  - rewrite foldl_snoc. destruct (decide (e.1 = m)) as [<-|Hne].
    + rewrite lookup_insert_eq. cbn [default]. intros Hw.
      exists e. split; [|done]. apply elem_of_app. right. by left.
    + rewrite lookup_insert_ne by done.
      intros (e' & Hin & Hw)%IH. exists e'. split; [|done].
      apply elem_of_app. by left.
Qed.

Lemma jogar_partidas32_built (jogos_r32 : gmap string jogo)
    (mids : list string)
    (acc : gmap string (option string) * list match_view)
    winners32 shown :
  foldl (jogar_partida32 radio jogos_r32) (Some acc) mids
  = Some (winners32, shown) →
  ∃ views,
    shown = acc.2 ++ views
    ∧ Forall2 (λ mid mv, partida32 radio jogos_r32 mid = Some mv) mids views
    ∧ (∀ m, m ∉ mids → winners32 !! m = acc.1 !! m)
    ∧ (NoDup mids →
       ∀ i mid mv, mids !! i = Some mid → views !! i = Some mv →
                   winners32 !! mid = Some (mv_winner mv)).
Proof.
  revert acc. induction mids as [|mid mids IH]; intros [winners0 shown0];
    cbn [foldl].
  - intros [= <- <-]. exists []. rewrite app_nil_r.
    split; [done|]. split; [constructor|]. split; [done|].
    intros _ i mid mv Hi. by rewrite lookup_nil in Hi.
  - unfold jogar_partida32 at 2. cbn [mbind option_bind].
    destruct (jogos_r32 !! mid) as [[[t1 t2] desc]|] eqn:Hjogo;
      cbn [mbind option_bind].
    2:{ intros Hfold. exfalso. revert Hfold. clear.
        induction mids as [|m mids IH]; cbn [foldl]; [done|]. exact IH. }
    intros (views & -> & Hviews & Hother & Hwinners)%IH. cbn [fst snd] in *.
    exists (MatchView mid desc t1 t2 (escolher_vencedor_ui radio mid t1 t2)
            :: views).
    split; [by rewrite <- app_assoc|]. split; [|split].
    + constructor; [|done]. unfold partida32. by rewrite Hjogo.
    + intros m [Hne Hout]%not_elem_of_cons.
      rewrite Hother by done. by rewrite lookup_insert_ne.
    + intros [Hfresh Hnd]%NoDup_cons [|i] mid' mv; cbn [lookup list_lookup].
      * intros [= <-] [= <-]. rewrite Hother by done.
        by rewrite lookup_insert_eq.
      * by apply Hwinners.
Qed.

Lemma order32_NoDup : NoDup order32.
Proof. compute_done. Qed.

Lemma jogar_round32_built (jogos_r32 : gmap string jogo) winners32 shown :
  jogar_round32 radio jogos_r32 = Some (winners32, shown) →
  Forall2 (λ mid mv, partida32 radio jogos_r32 mid = Some mv) order32 shown
  ∧ (∀ m, m ∉ order32 → winners32 !! m = None)
  ∧ (∀ i mid mv, order32 !! i = Some mid → shown !! i = Some mv →
                 winners32 !! mid = Some (mv_winner mv)).
Proof.
  intros (views & -> & Hviews & Hother & Hwinners)%jogar_partidas32_built.
  cbn [fst snd app] in *. split; [done|]. split.
  - intros m Hout. rewrite Hother by done. apply lookup_empty.
  - apply Hwinners, order32_NoDup.
Qed.

Lemma escolher_vencedor_ui_needs_teams match_id t1 t2 :
  is_Some (escolher_vencedor_ui radio match_id t1 t2) →
  truthy t1 = true ∧ truthy t2 = true.
Proof.
  intros Hsome. destruct (truthy t1) eqn:H1, (truthy t2) eqn:H2; try done;
    rewrite escolher_vencedor_ui_pending in Hsome by auto; by destruct Hsome.
Qed.

Lemma truthy_is_Some (o : option string) : truthy o = true → is_Some o.
Proof. by destruct o. Qed.

(** If every match of the next round has a winner, so has every match of
    this round. *)
Lemma round_played_before (matches next : Dict.t (string * string))
    (prev : gmap string (option string)) :
  NoDup (Dict.keys matches) →
  all_feed (Dict.keys matches) next →
  Forall (λ mv, is_Some (mv_winner mv))
         (partida radio (jogar_rodada radio matches prev).1 <$> next) →
  Forall (λ mv, truthy (mv_winner mv) = true)
         (jogar_rodada radio matches prev).2.
Proof.
  intros Hnd Hfeed Hnext. rewrite jogar_rodada_shown.
  apply Forall_fmap, Forall_forall. intros e He. cbn [compose].
  unfold all_feed in Hfeed. rewrite Forall_forall in Hfeed.
  assert (e.1 ∈ Dict.keys matches) as Hkey.
  { apply list_elem_of_fmap. by exists e. }
  apply Hfeed, Exists_exists in Hkey as [e' [He' Hsrc]].
  rewrite Forall_fmap, Forall_forall in Hnext.
  specialize (Hnext e' He'). cbn [compose partida mv_winner] in Hnext.
  apply escolher_vencedor_ui_needs_teams in Hnext as [H1 H2].
  rewrite <- (jogar_rodada_winner_get matches prev e) by done.
  by destruct Hsrc as [-> | ->].
Qed.

Lemma bracket_feeds :
  all_feed order32 ROUND16_MATCHES
  ∧ all_feed (Dict.keys ROUND16_MATCHES) QUARTERS_MATCHES
  ∧ all_feed (Dict.keys QUARTERS_MATCHES) SEMIS_MATCHES
  ∧ all_feed (Dict.keys SEMIS_MATCHES) [("M104 (Final)", ("M101", "M102"))]
  ∧ NoDup (Dict.keys ROUND16_MATCHES)
  ∧ NoDup (Dict.keys QUARTERS_MATCHES)
  ∧ NoDup (Dict.keys SEMIS_MATCHES).
Proof. repeat split; compute_done. Qed.

(** X11. A champion can be picked only when the whole bracket has been
    played: if the final of a rendered bracket has a winner, then each of
    the 30 matches from the round of 32 to the semifinals has a non-empty
    winner. *)
Theorem champion_needs_whole_bracket
    (jogos_r32 : gmap string jogo) (view : bracket_view) :
  chaveamento radio jogos_r32 = Some view →
  is_Some (mv_winner (bv_final view)) →
  Forall (λ mv, truthy (mv_winner mv) = true)
         (bv_round32 view ++ bv_round16 view ++ bv_quarters view
          ++ bv_semis view).
Proof.
  unfold chaveamento.
  destruct (jogar_round32 radio jogos_r32) as [[winners32 shown32]|] eqn:H32;
    [|done].
  cbn [mbind option_bind].
  destruct bracket_feeds as (F32 & F16 & FQ & FS & N16 & NQ & NS).
  pose proof (round_played_before ROUND16_MATCHES QUARTERS_MATCHES winners32
                N16 F16) as P16.
  pose proof (jogar_rodada_shown radio ROUND16_MATCHES winners32) as S16.
  destruct (jogar_rodada radio ROUND16_MATCHES winners32)
    as [winners16 shown16].
  pose proof (round_played_before QUARTERS_MATCHES SEMIS_MATCHES winners16
                NQ FQ) as PQ.
  pose proof (jogar_rodada_shown radio QUARTERS_MATCHES winners16) as SQ.
  destruct (jogar_rodada radio QUARTERS_MATCHES winners16)
    as [winnersQ shownQ].
  pose proof (round_played_before SEMIS_MATCHES
                [("M104 (Final)", ("M101", "M102"))] winnersQ NS FS) as PS.
  pose proof (jogar_rodada_shown radio SEMIS_MATCHES winnersQ) as SS.
  destruct (jogar_rodada radio SEMIS_MATCHES winnersQ) as [winnersS shownS].
  destruct (terceiro_lugar radio winnersQ winnersS) as [third|]; [|done].
  cbn [mbind option_bind fst snd] in *. intros [= <-].
  cbn [bv_final bv_round32 bv_round16 bv_quarters bv_semis].
  intros Hchampion.
  assert (Forall (λ mv, truthy (mv_winner mv) = true) shownS) as HS.
  { apply PS. apply Forall_singleton. exact Hchampion. }
  assert (Forall (λ mv, truthy (mv_winner mv) = true) shownQ) as HQ.
  { apply PQ. rewrite <- SS.
    eapply Forall_impl; [exact HS|]. intros mv. apply truthy_is_Some. }
  assert (Forall (λ mv, truthy (mv_winner mv) = true) shown16) as H16.
  { apply P16. rewrite <- SQ.
    eapply Forall_impl; [exact HQ|]. intros mv. apply truthy_is_Some. }
  rewrite !Forall_app. split; [|done].
  apply jogar_round32_built in H32 as (Hviews & _ & Hwinners).
  apply Forall_lookup. intros i mv Hmv.
  destruct (Forall2_lookup_r _ _ _ _ _ Hviews Hmv) as (mid & Hmid & _).
  unfold all_feed in F32. rewrite Forall_lookup in F32.
  pose proof (F32 i mid Hmid) as Hfeed.
  apply Exists_exists in Hfeed as [e [He Hsrc]].
  rewrite S16, Forall_fmap, Forall_forall in H16.
  specialize (H16 e He). cbn [compose partida mv_winner] in H16.
  apply truthy_is_Some, escolher_vencedor_ui_needs_teams in H16 as [H1 H2].
  pose proof (Hwinners i mid mv Hmid Hmv) as Hw.
  unfold winners_get in H1, H2.
  destruct Hsrc as [Hsrc|Hsrc]; rewrite <- Hsrc, Hw in *; done.
Qed.
End propagation.

Lemma champion_needs_whole_bracket_witness :
  Forall (λ mv, truthy (mv_winner mv) = true)
         (bv_round32 view_example ++ bv_round16 view_example
          ++ bv_quarters view_example ++ bv_semis view_example).
Proof.
  apply (champion_needs_whole_bracket radio_first jogos_example view_example).
  - exact chaveamento_example.
  - vm_compute. by eexists.
Defined.

Section teams_of_the_bracket.
Variable radio : string → list string → option string.
Hypothesis radio_contract : radio_picks_option radio.

Lemma asked_plays_in (shown : list match_view) (mv : match_view) :
  asked radio mv →
  plays_in shown (mv_team1 mv) → plays_in shown (mv_team2 mv) →
  plays_in shown (mv_winner mv).
Proof.
  intros Hasked H1 H2 t Hw. rewrite Hasked in Hw.
  apply (escolher_vencedor_ui_chosen radio) in Hw as (_ & _ & [Ht|Ht]);
    [by apply H1|by apply H2|done].
Qed.

Lemma round_plays_in (shown32 : list match_view)
    (matches : Dict.t (string * string))
    (prev : gmap string (option string)) :
  (∀ m, plays_in shown32 (winners_get prev m)) →
  (∀ m, plays_in shown32 (winners_get (jogar_rodada radio matches prev).1 m))
  ∧ Forall (λ mv, plays_in shown32 (mv_team1 mv)
                  ∧ plays_in shown32 (mv_team2 mv)
                  ∧ plays_in shown32 (mv_winner mv))
           (jogar_rodada radio matches prev).2.
Proof.
  intros Hprev.
  assert (∀ e, plays_in shown32 (mv_winner (partida radio prev e))) as Hwin.
  { intros e. apply asked_plays_in; [apply partida_asked|apply Hprev..]. }
  split.
  - intros m t (e & _ & Hw)%jogar_rodada_winner_from. by apply (Hwin e).
  - rewrite jogar_rodada_shown. apply Forall_fmap, Forall_forall.
    intros e _. cbn [compose]. split; [apply Hprev|].
    split; [apply Hprev|apply Hwin].
Qed.

(** X12. When the radio groups return one of their options, nobody enters
    the bracket on the way: every team and every winner shown in any round
    of a rendered bracket, the champion and the third-placed team included,
    is one of the teams of the round of 32. *)
Theorem bracket_teams_come_from_round32
    (jogos_r32 : gmap string jogo) (view : bracket_view) :
  chaveamento radio jogos_r32 = Some view →
  Forall (λ mv, plays_in (bv_round32 view) (mv_team1 mv)
                ∧ plays_in (bv_round32 view) (mv_team2 mv)
                ∧ plays_in (bv_round32 view) (mv_winner mv))
         (all_matches view).
Proof.
  intros Hview.
  pose proof (chaveamento_matches radio _ _ Hview)
    as (_ & _ & _ & _ & _ & _ & Hasked).
  revert Hview Hasked. unfold chaveamento.
  destruct (jogar_round32 radio jogos_r32) as [[winners32 shown32]|] eqn:H32;
    [|done].
  cbn [mbind option_bind].
  apply jogar_round32_built in H32 as (Hviews & Hother & Hwinners).
  assert (∀ mv, mv ∈ shown32 → asked radio mv) as Hasked32.
  { intros mv [i Hmv]%list_elem_of_lookup.
    destruct (Forall2_lookup_r _ _ _ _ _ Hviews Hmv) as (mid & _ & Hmid).
    unfold partida32 in Hmid.
    destruct (jogos_r32 !! mid) as [[[t1 t2] desc]|]; [|done].
    by injection Hmid as <-. }
  assert (∀ mv, mv ∈ shown32 →
                plays_in shown32 (mv_team1 mv)
                ∧ plays_in shown32 (mv_team2 mv)
                ∧ plays_in shown32 (mv_winner mv)) as H32.
  { intros mv Hmv.
    assert (plays_in shown32 (mv_team1 mv)) as H1
      by (intros t Ht; exists mv; auto).
    assert (plays_in shown32 (mv_team2 mv)) as H2
      by (intros t Ht; exists mv; auto).
    split; [done|]. split; [done|]. by apply asked_plays_in; [apply Hasked32|..]. }
  assert (∀ m, plays_in shown32 (winners_get winners32 m)) as Hw32.
  { intros m t Hw. unfold winners_get in Hw.
    destruct (decide (m ∈ order32)) as [Hin|Hout];
      [|by rewrite Hother in Hw].
    apply list_elem_of_lookup in Hin as [i Hi].
    destruct (Forall2_lookup_l _ _ _ _ _ Hviews Hi) as (mv & Hmv & _).
    rewrite (Hwinners i m mv Hi Hmv) in Hw. cbn [default] in Hw.
    assert (mv ∈ shown32) as Hin by (apply list_elem_of_lookup; by exists i).
    by apply (H32 mv Hin). }
  destruct (round_plays_in shown32 ROUND16_MATCHES winners32 Hw32)
    as [Hw16 H16].
  destruct (jogar_rodada radio ROUND16_MATCHES winners32)
    as [winners16 shown16].
  destruct (round_plays_in shown32 QUARTERS_MATCHES winners16 Hw16)
    as [HwQ HQ].
  destruct (jogar_rodada radio QUARTERS_MATCHES winners16)
    as [winnersQ shownQ].
  destruct (round_plays_in shown32 SEMIS_MATCHES winnersQ HwQ) as [HwS HS].
  destruct (jogar_rodada radio SEMIS_MATCHES winnersQ) as [winnersS shownS].
  cbn [fst snd] in *.
  pose proof (terceiro_lugar_state radio winnersQ winnersS) as Hthird.
  cbn zeta in Hthird.
  destruct (terceiro_lugar radio winnersQ winnersS) as [third|]; [|done].
  cbn [mbind option_bind]. intros [= <-]. unfold all_matches.
  cbn [bv_round32 bv_round16 bv_quarters bv_semis bv_third bv_final].
  rewrite !Forall_app. intros (_ & _ & _ & _ & [A3 [AF _]%Forall_cons]%Forall_cons).
  split; [by apply Forall_forall|]. split; [done|]. split; [done|].
  split; [done|].
  apply Forall_cons. split; [|apply Forall_singleton].
  - assert (plays_in shown32 (mv_team1 (third_as_match third))
            ∧ plays_in shown32 (mv_team2 (third_as_match third))) as [T1 T2].
    { destruct (all_truthy _).
      - destruct Hthird as (l1 & l2 & [= ->] & ([-> | ->] & _) & ([-> | ->] & _));
          split; apply HwQ.
      - injection Hthird as ->. by split. }
    split; [done|]. split; [done|]. by apply asked_plays_in.
  - assert (plays_in shown32 (mv_team1 (jogo_final radio winnersS))) as T1
      by apply HwS.
    assert (plays_in shown32 (mv_team2 (jogo_final radio winnersS))) as T2
      by apply HwS.
    split; [done|]. split; [done|]. by apply asked_plays_in.
Qed.
End teams_of_the_bracket.

Lemma bracket_teams_come_from_round32_witness :
  Forall (λ mv, plays_in (bv_round32 view_example) (mv_team1 mv)
                ∧ plays_in (bv_round32 view_example) (mv_team2 mv)
                ∧ plays_in (bv_round32 view_example) (mv_winner mv))
         (all_matches view_example).
Proof.
  exact (bracket_teams_come_from_round32 radio_first radio_first_picks_option
           jogos_example view_example chaveamento_example).
Defined.

(** ** A rendered bracket has a full round of 32 *)

Lemma INITIAL_GROUPS_names :
  Forall (λ e : string * list string, Forall (λ t, t ≠ "") e.2) INITIAL_GROUPS.
Proof. compute_done. Qed.

Lemma round32_seed_codes :
  Forall (λ e : string * (string * string), seed_code e.2.1 ∧ seed_code e.2.2)
         ROUND32_FIXED
  ∧ Forall (λ e : string * (string * list string), seed_code e.2.1)
           ROUND32_THIRD_SLOTS.
Proof.
  assert (∀ pos group,
            bool_decide (pos ∈ position_chars) = true →
            bool_decide (String group EmptyString ∈ GROUP_NAMES) = true →
            seed_code (String pos (String group EmptyString))) as Hcode.
  { intros pos group Hpos%bool_decide_eq_true Hgroup%bool_decide_eq_true.
    by exists pos, group. }
  split.
  - repeat (apply Forall_cons;
            split; [split; by apply Hcode; vm_compute|]).
    apply Forall_nil_2.
  - repeat (apply Forall_cons; split; [by apply Hcode; vm_compute|]).
    apply Forall_nil_2.
Qed.

Lemma extrair_time_named (standings : Dict.t (list string)) (code : string) :
  (∀ g, g ∈ GROUP_NAMES →
        ∃ st, Dict.get standings g = Some st ∧ named_standing st) →
  seed_code code →
  truthy (extrair_time code standings) = true.
Proof.
  intros Hst (pos & group & -> & Hpos & Hgroup).
  destruct (Hst _ Hgroup) as (st & Hget & Hlen & Hnames).
  rewrite extrair_time_two_chars_unfold, Hget.
  rewrite bool_decide_eq_false_2 by (intros ?; lia).
  destruct (position_lookup pos) as [(_ & -> & Hlt)|[? _]]; [|done].
  destruct (lookup_lt_is_Some_2 st (position_index pos)) as [t Ht]; [lia|].
  rewrite Ht. cbn [truthy].
  rewrite Forall_forall in Hnames.
  rewrite bool_decide_eq_false_2; [done|].
  apply Hnames. apply list_elem_of_lookup. by eexists.
Qed.

Lemma montar_round32_no_error standings qualified_thirds
    (jogos : gmap string jogo) (err : option string) :
  montar_round32 standings qualified_thirds = Some (jogos, err) →
  truthy err = false → err = None.
Proof.
  unfold montar_round32.
  destruct (distribuir_terceiros_nos_jogos_outcome qualified_thirds)
    as [(assignment & -> & _)|(e & -> & Herr)].
  - cbn [truthy mbind option_bind].
    destruct (foldl (third_game _ _) _ _); cbn [mbind option_bind]; [|done].
    by intros [= _ <-].
  - rewrite Herr. intros [= _ <-]. congruence.
Qed.

(** With select boxes that return one of their options, standings without
    errors hold four named teams for every group. *)
Lemma standings_named (selectbox : string → list string → string)
    (standings : Dict.t (list string)) :
  selectbox_picks_option selectbox →
  montar_classificacao_grupos selectbox INITIAL_GROUPS = Some (standings, []) →
  Dict.keys standings = GROUP_NAMES
  ∧ ∀ g, g ∈ GROUP_NAMES →
         ∃ st, Dict.get standings g = Some st ∧ named_standing st.
Proof.
  intros Hcontract Hmontar.
  unfold montar_classificacao_grupos in Hmontar.
  rewrite (montar_classificacao_grupos_closed_form selectbox INITIAL_GROUPS
             GROUP_NAMES GROUP_NAMES_NoDup INITIAL_GROUPS_total) in Hmontar.
  remember ((λ g, (g, standing_of selectbox INITIAL_GROUPS g)) <$> GROUP_NAMES)
    as built eqn:Hbuilt.
  remember (filter (λ g, standing_of selectbox INITIAL_GROUPS g = [])
                   GROUP_NAMES) as rejected eqn:Hrejected.
  assert (built = standings ∧ fill_group_error <$> rejected = [])
    as [<- Herrors%fmap_nil_inv] by (by injection Hmontar).
  subst rejected. split.
  { rewrite Hbuilt. unfold Dict.keys. rewrite <- list_fmap_compose.
    change (id <$> GROUP_NAMES = GROUP_NAMES). apply list_fmap_id. }
  intros g Hg. rewrite Hbuilt, dict_get_fmap by done.
  eexists. split; [done|].
  destruct (INITIAL_GROUPS_total g Hg) as [teams Hget].
  assert (standing_of selectbox INITIAL_GROUPS g ≠ []) as Hst.
  { intros Hnil.
    assert (g ∈ filter (λ g, standing_of selectbox INITIAL_GROUPS g = [])
                       GROUP_NAMES) as Hin by by apply list_elem_of_filter.
    rewrite Herrors in Hin. by apply elem_of_nil in Hin. }
  rewrite (standing_of_nil selectbox INITIAL_GROUPS g teams Hget) in Hst.
  apply not_false_is_true in Hst.
  destruct (escolher_posicoes_choices selectbox Hcontract g teams)
    as [Hvalid Hfilled].
  unfold standing_of. rewrite Hget. cbn zeta. rewrite Hst.
  split; [apply escolher_posicoes_length|].
  apply Hvalid in Hst. destruct (Hfilled Hst) as (_ & Hsub & _).
  apply Forall_forall. intros t Ht%Hsub.
  pose proof INITIAL_GROUPS_names as Hnames.
  rewrite Forall_forall in Hnames.
  assert ((g, teams) ∈ INITIAL_GROUPS) as Hentry.
  { clear -Hget. induction INITIAL_GROUPS as [|[g0 ts] d IH]; [done|].
    cbn [Dict.get] in Hget. case_decide as Hg.
    - injection Hget as ->. subst g0. by left.
    - right. by apply IH. }
  specialize (Hnames _ Hentry). rewrite Forall_forall in Hnames.
  by apply Hnames.
Qed.

(** What the script has computed when it renders the bracket. *)
Lemma app_bracket_stages
    (selectbox : string → list string → string) (checkbox : string → bool)
    (radio : string → list string → option string) (view : bracket_view) :
  app selectbox checkbox radio = Some (Bracket view) →
  ∃ standings qualified_thirds jogos_r32,
    montar_classificacao_grupos selectbox INITIAL_GROUPS = Some (standings, [])
    ∧ escolher_top8_terceiros_ui checkbox (coletar_terceiros standings)
      = (qualified_thirds, [])
    ∧ montar_round32 standings qualified_thirds = Some (jogos_r32, None)
    ∧ chaveamento radio jogos_r32 = Some view.
Proof.
  unfold app.
  destruct (montar_classificacao_grupos selectbox INITIAL_GROUPS)
    as [[standings errors_groups]|]; [|done].
  cbn [mbind option_bind].
  case_bool_decide as Hgroups; cbn [negb]; [subst errors_groups|done].
  destruct (escolher_top8_terceiros_ui checkbox _)
    as [qualified_thirds errors_thirds] eqn:Htop8.
  case_bool_decide as Hthirds; cbn [negb]; [subst errors_thirds|done].
  destruct (montar_round32 standings qualified_thirds)
    as [[jogos_r32 err]|] eqn:H32; [|done].
  cbn [mbind option_bind].
  destruct (truthy err) eqn:Herr; [done|].
  apply (montar_round32_no_error _ _ _ _ H32) in Herr as ->.
  destruct (chaveamento radio jogos_r32) as [view'|] eqn:Hview; [|done].
  intros [= ->]. by exists standings, qualified_thirds, jogos_r32.
Qed.

(** X13. When the select boxes return one of their options, a rendered
    bracket has a full round of 32: 16 matches, in the order of [order32],
    each with two resolved teams, so none of them waits for teams. *)
Theorem rendered_round32_has_all_teams
    (selectbox : string → list string → string) (checkbox : string → bool)
    (radio : string → list string → option string) (view : bracket_view) :
  selectbox_picks_option selectbox →
  app selectbox checkbox radio = Some (Bracket view) →
  mv_id <$> bv_round32 view = order32
  ∧ Forall (λ mv, truthy (mv_team1 mv) = true ∧ truthy (mv_team2 mv) = true)
           (bv_round32 view).
Proof.
  intros Hcontract
    (standings & qualified & jogos & Hmontar & Htop8 & H32 & Hview)
    %app_bracket_stages.
  split; [by apply (chaveamento_matches radio) in Hview as (? & _)|].
  destruct (standings_named selectbox standings Hcontract Hmontar)
    as [Hkeys Hnamed].
  (* every qualified third-placed team is named *)
  assert (∀ group team, (group, team) ∈ qualified → team ≠ "") as Hthirds.
  { intros group team Hq.
    apply escolher_top8_terceiros_ui_selected in Htop8 as [Hsub _].
    apply (sublist_subseteq _ _ Hsub) in Hq.
    rewrite coletar_terceiros_omap in Hq.
    apply list_elem_of_omap in Hq as ([g pos] & Hin & Hthird).
    cbn [fst snd] in Hthird. case_bool_decide as Hlen; [|done].
    injection Hthird as <- Hteam.
    assert (g ∈ GROUP_NAMES) as Hg.
    { rewrite <- Hkeys. apply list_elem_of_fmap. by exists (g, pos). }
    destruct (Hnamed g Hg) as (st & Hget & _ & Hnames).
    rewrite (dict_get_of_elem standings g pos) in Hget;
      [|rewrite Hkeys; apply GROUP_NAMES_NoDup|done].
    injection Hget as <-.
    destruct (lookup_lt_is_Some_2 pos 2) as [t Ht]; [lia|].
    rewrite Ht in Hteam. cbn [default] in Hteam. rewrite <- Hteam.
    rewrite Forall_forall in Hnames. apply Hnames.
    apply list_elem_of_lookup. by eexists. }
  (* hence every game has its two teams *)
  apply montar_round32_built in H32
    as (mids & _ & _ & Hfixed & Hthird & _).
  revert Hview. unfold chaveamento.
  destruct (jogar_round32 radio jogos) as [[winners32 shown32]|] eqn:Hplay;
    [|done].
  cbn [mbind option_bind].
  destruct (jogar_rodada radio ROUND16_MATCHES winners32) as [w16 s16].
  destruct (jogar_rodada radio QUARTERS_MATCHES w16) as [wQ sQ].
  destruct (jogar_rodada radio SEMIS_MATCHES wQ) as [wS sS].
  destruct (terceiro_lugar radio wQ wS); [|done].
  cbn [mbind option_bind]. intros [= <-]. cbn [bv_round32].
  apply jogar_round32_built in Hplay as (Hviews & _).
  apply Forall_lookup. intros i mv Hmv.
  destruct (Forall2_lookup_r _ _ _ _ _ Hviews Hmv) as (mid & Hmid & Hshown).
  assert (mid ∈ round32_ids) as Hid.
  { destruct bracket_tables_ids as [_ Hperm]. rewrite Hperm.
    apply list_elem_of_lookup. by exists i. }
  destruct round32_seed_codes as [Cfixed Cthird].
  rewrite Forall_forall in Cfixed. rewrite Forall_forall in Cthird.
  unfold partida32 in Hshown.
  apply elem_of_app in Hid as [Hid|Hid];
    apply list_elem_of_fmap in Hid as ([mid' [a b]] & -> & Hin); cbn [fst] in *.
  - rewrite (Hfixed _ _ _ Hin) in Hshown. cbn [mbind option_bind] in Hshown.
    injection Hshown as <-. cbn [mv_team1 mv_team2].
    destruct (Cfixed _ Hin) as [C1 C2]. cbn [fst snd] in C1, C2.
    split; by apply extrair_time_named.
  - destruct (Hthird _ _ _ Hin) as (j & group & team & Hq & _ & _ & Hgame).
    rewrite Hgame in Hshown. cbn [mbind option_bind] in Hshown.
    injection Hshown as <-. cbn [mv_team1 mv_team2].
    pose proof (Cthird _ Hin) as C1. cbn [fst snd] in C1.
    split; [by apply extrair_time_named|]. cbn [truthy].
    rewrite bool_decide_eq_false_2; [done|].
    apply (Hthirds group). apply list_elem_of_lookup. by exists j.
Qed.

Lemma app_example_second :
  app selectbox_second checkbox_A_to_H radio_first = Some (Bracket view_example).
Proof. vm_compute. reflexivity. Qed.

Lemma rendered_round32_has_all_teams_witness :
  mv_id <$> bv_round32 view_example = order32
  ∧ Forall (λ mv, truthy (mv_team1 mv) = true ∧ truthy (mv_team2 mv) = true)
           (bv_round32 view_example).
Proof.
  exact (rendered_round32_has_all_teams selectbox_second checkbox_A_to_H
           radio_first view_example selectbox_second_picks_option
           app_example_second).
Defined.

(** X14. [montar_round32] raises nothing: the dictionary of the engine has
    every slot the second loop reads.  It passes on the error of the engine
    as it is, and with an error it returns no game at all. *)
Theorem montar_round32_passes_on_error (standings : Dict.t (list string))
    (qualified_thirds : list (string * string)) :
  ∃ jogos err,
    montar_round32 standings qualified_thirds = Some (jogos, err)
    ∧ err = (distribuir_terceiros_nos_jogos qualified_thirds).2
    ∧ (err ≠ None → jogos = ∅)
    ∧ (err = None → dom jogos = list_to_set order32).
Proof.
  destruct (montar_round32_total standings qualified_thirds)
    as (jogos & err & Hbuilt & Hkeys).
  exists jogos, err. split; [done|].
  revert Hbuilt. unfold montar_round32.
  destruct (distribuir_terceiros_nos_jogos_outcome qualified_thirds)
    as [(assignment & Hok & _)|(e & Hfail & Herr)].
  - rewrite Hok. cbn [truthy mbind option_bind snd].
    destruct (foldl (third_game _ _) _ _) as [jogos'|] eqn:Hthird;
      cbn [mbind option_bind]; [|done].
    intros [= <- <-]. split; [done|]. split; [done|]. intros _.
    apply set_eq. intros mid. rewrite elem_of_dom, elem_of_list_to_set.
    split; [|by apply Hkeys].
    intros Hsome. apply dec_stable. intros Hout.
    assert (mid ∉ round32_ids) as Hout'.
    { destruct bracket_tables_ids as [_ Hperm]. by rewrite Hperm. }
    apply not_elem_of_app in Hout' as [Hf Ht].
    rewrite (third_games_lookup_notin _ _ _ _ _ _ Hthird Ht) in Hsome.
    rewrite fixed_games_lookup_notin in Hsome by done.
    rewrite lookup_empty in Hsome. by destruct Hsome.
  - rewrite Hfail, Herr. intros [= <- <-]. by repeat split.
Qed.
